(** * latency-visualizer: probe loops, per-host statistics and displays

    A shallow embedding of [main.go] (the ICMP and TCP probe loops, the
    graph and table displays, the shutdown logger) together with the two
    other revisions of the probe loop kept in the repository, and the
    properties of the per-host statistics record that follow from it.

    Conventions of the embedding:
    - Go's [int] is a 64-bit two's complement integer: a [Z] with the
      wrap-around written out ([wrap]);
    - [time.Duration] is an [int64] count of nanoseconds, a [Z];
    - [float64] values are the exact rationals they denote ([Q]); binary64
      rounding is not part of the model;
    - the block a goroutine runs between [mutex.Lock] and [mutex.Unlock] is
      one atomic statement;
    - what the network, the clock and the scheduler answer is an explicit
      input of the loop. *)

From Stdlib Require Import ZArith QArith List String Lia Permutation Sorted.
From stdpp Require Import base list sorting strings gmap.

Close Scope Q_scope.
Open Scope Z_scope.

(** ** Machine integers, durations and floats *)

Definition wrap (z : Z) : Z := (z + 2 ^ 63) mod 2 ^ 64 - 2 ^ 63.

Definition int_add (a b : Z) : Z := wrap (a + b).
Definition int_sub (a b : Z) : Z := wrap (a - b).

(** [x++] *)
Definition incr (x : Z) : Z := int_add x 1.

Abbreviation Duration := Z.

(** Instants of the wall clock ([time.Time]), as nanoseconds since an epoch. *)
Abbreviation Time := Z.

(** [d.Milliseconds()]: integer division truncated toward zero. *)
Definition Milliseconds (d : Duration) : Z := Z.quot d 1000000.

Abbreviation float64 := Q.

(** [float64(n)] *)
Definition float64_of_int (n : Z) : float64 := inject_Z n.

(** [float64(sent-received) / float64(sent) * 100] *)
Definition loss_percent (sent received : Z) : float64 :=
  (float64_of_int (int_sub sent received) / float64_of_int sent * 100)%Q.

(** ** Configuration and the per-host record *)

Record Config := mkConfig {
  Hosts : list string;
  Interval : Duration;
  Timeout : Duration;
  UseICMP : bool
}.

(** [HostStats] without its [mutex]: the lock is modelled by the atomicity
    of the statements that hold it. *)
Record HostStats := mkHostStats {
  Host : string;
  Latency : Duration;
  PacketLoss : float64;
  Timestamps : list Time;
  RTTs : list Duration
}.

(** [&HostStats{Host: host}]: every other field has its zero value. *)
Definition new_HostStats (host : string) : HostStats :=
  mkHostStats host 0 0%Q [] [].

#[global] Instance HostStats_inhabited : Inhabited HostStats :=
  populate (new_HostStats "").

(** The counters a probe loop keeps in local variables. ([pingICMP]'s third
    local, [seq], is the accumulator of its loop function below.) *)
Record Locals := mkLocals {
  sent : Z;
  received : Z
}.

(** [sent := 0; received := 0] *)
Definition locals0 : Locals := mkLocals 0 0.

(** ** What a probe loop asks of its environment *)

Inductive Effect :=
| ELog (what : string)
| ESetDeadline (timeout : Duration)
| EWriteTo (id sq : Z)          (* an echo request with this ID and Seq *)
| EReadFrom
| EDialTimeout (host : string) (timeout : Duration)
| EClose
| ESleep (d : Duration)
| EPlot (row : list float64).   (* [plot.Data[i] = slice] *)

(** A datagram read from the raw ICMP socket: either bytes that
    [icmp.ParseMessage] rejects, or a message with its type and, for echo
    messages, the identifier and sequence number of its body. *)
Inductive Packet :=
| Unparsable
| IcmpMessage (type id sq : Z).

Definition ICMPTypeEcho : Z := 8.
Definition ICMPTypeEchoReply : Z := 0.

(** One round of the ICMP loop, as the socket answers it. *)
Inductive IcmpIO :=
| WriteErr                                          (* [conn.WriteTo] fails *)
| ReadErr                                           (* [conn.ReadFrom] fails: deadline *)
| ReadOk (pkt : Packet) (rtt : Duration) (now : Time).

(** One round of the TCP loop. *)
Inductive DialIO :=
| DialErr
| DialOk (rtt : Duration) (now : Time).

(** The two calls before the ICMP loop. *)
Inductive IcmpSetup :=
| ResolveErr
| ListenErr
| Listening.

(** ** Statements

    The body of a loop, for a given answer of the environment, is a
    straight line of statements over the loop's locals and the host's
    record. [Update] is the block under the record's lock that both probe
    loops share; [GraphTick] is the block [displayGraph] runs on a record
    under the same lock. *)

Inductive Stmt :=
| SentIncr
| ReceivedIncr
| Update (rtt : Duration) (now : Time)
| LossOnly
| Do (e : Effect)
| GraphTick.

Abbreviation State := (Locals * HostStats)%type.

(** [stats.RTTs = append(stats.RTTs, rtt); stats.Latency = rtt;
     stats.Timestamps = append(stats.Timestamps, time.Now());
     stats.PacketLoss = float64(sent-received) / float64(sent) * 100] *)
Definition update (l : Locals) (rtt : Duration) (now : Time) (s : HostStats) : HostStats :=
  {| Host := Host s;
     Latency := rtt;
     PacketLoss := loss_percent (sent l) (received l);
     Timestamps := Timestamps s ++ [now];
     RTTs := RTTs s ++ [rtt] |}.

(** [stats.PacketLoss = float64(sent-received) / float64(sent) * 100] alone
    (the read-error branch of the first revision's [ping]). *)
Definition loss_only (l : Locals) (s : HostStats) : HostStats :=
  {| Host := Host s;
     Latency := Latency s;
     PacketLoss := loss_percent (sent l) (received l);
     Timestamps := Timestamps s;
     RTTs := RTTs s |}.

(** [s[len(s)-50:]] when [len(s) > 50], [s] otherwise. *)
Definition last50 {A : Type} (s : list A) : list A :=
  if (50 <? length s)%nat then drop (length s - 50) s else s.

(** [if len(s.RTTs) > 50 { s.RTTs = s.RTTs[len(s.RTTs)-50:] }] *)
Definition trim (s : HostStats) : HostStats :=
  {| Host := Host s;
     Latency := Latency s;
     PacketLoss := PacketLoss s;
     Timestamps := Timestamps s;
     RTTs := last50 (RTTs s) |}.

(** [slice[j] = float64(d.Milliseconds())] for every [d] of [s.RTTs]. *)
Definition plot_row (s : HostStats) : list float64 :=
  map (fun d => float64_of_int (Milliseconds d)) (RTTs s).

Definition exec_stmt (c : Stmt) (st : State) : State * list Effect :=
  let '(l, s) := st in
  match c with
  | SentIncr => ((mkLocals (incr (sent l)) (received l), s), [])
  | ReceivedIncr => ((mkLocals (sent l) (incr (received l)), s), [])
  | Update rtt now => ((l, update l rtt now s), [])
  | LossOnly => ((l, loss_only l s), [])
  | Do e => ((l, s), [e])
  | GraphTick => let s' := trim s in ((l, s'), [EPlot (plot_row s')])
  end.

(** Running a straight line of statements: the final state and what was
    asked of the environment, in order. *)
Fixpoint exec (p : list Stmt) (st : State) : State * list Effect :=
  match p with
  | [] => (st, [])
  | c :: p' =>
      let '(st1, t1) := exec_stmt c st in
      let '(st2, t2) := exec p' st1 in
      (st2, t1 ++ t2)
  end.

Definition final (p : list Stmt) (st : State) : State := fst (exec p st).
Definition effects (p : list Stmt) (st : State) : list Effect := snd (exec p st).

(** The state after each statement of [p], in order. *)
Fixpoint points (p : list Stmt) (st : State) : list State :=
  match p with
  | [] => []
  | c :: p' => let st1 := fst (exec_stmt c st) in st1 :: points p' st1
  end.

(** ** The program state: every host's record and the slice of pointers

    [main] allocates one [HostStats] per configured host and collects the
    pointers in [allStats]; the probe goroutines keep their pointer, the
    displays and the logger receive the slice. A pointer is the index of
    its record in [records]. *)

Record World := mkWorld {
  records : list HostStats;
  allStats : list nat
}.

Definition deref (w : World) (p : nat) : HostStats := records w !!! p.

(** A row of the table display: [fmt.Sprintf("%s %v %.1f%%", s.Host,
    s.Latency, s.PacketLoss)], before formatting. *)
Abbreviation Row := (string * Z * Q)%type.

Definition row_of (s : HostStats) : Row := (Host s, Latency s, PacketLoss s).

(** The comparison [displayLoop] hands to [sort.Slice]:
    [stats[i].Latency < stats[j].Latency]. *)
Definition less_Latency (recs : list HostStats) (p q : nat) : bool :=
  Latency (recs !!! p) <? Latency (recs !!! q).

(** ** [main.go] *)

Module Main.

(** One round of [pingICMP]'s loop; [sq] is the value of [seq] when the
    round starts, [pid] is [os.Getpid()]. *)
Definition pingICMP_body (cfg : Config) (pid : Z) (sq : Z) (io : IcmpIO) : list Stmt :=
  let id := Z.land pid 0xffff in
  [Do (ESetDeadline (Timeout cfg)); Do (EWriteTo id sq); SentIncr] ++
  match io with
  | WriteErr => []                                   (* [continue] *)
  | ReadErr => [Do EReadFrom; Do (ESleep (Interval cfg))]
  | ReadOk _ rtt now =>
      [Do EReadFrom; ReceivedIncr; Update rtt now; Do (ESleep (Interval cfg))]
  end.

(** [pingICMP]'s loop, one round for each answer of the socket (as many as
    [run] stays true for); [seq++] is the [incr sq] of the recursive call. *)
Fixpoint pingICMP_loop (cfg : Config) (pid : Z) (sq : Z) (ios : list IcmpIO) : list Stmt :=
  match ios with
  | [] => []
  | io :: ios' => pingICMP_body cfg pid sq io ++ pingICMP_loop cfg pid (incr sq) ios'
  end.

Definition pingICMP (cfg : Config) (pid : Z) (setup : IcmpSetup) (ios : list IcmpIO) : list Stmt :=
  match setup with
  | ResolveErr => [Do (ELog "Resolve error")]
  | ListenErr => [Do (ELog "ICMP ListenPacket error")]
  | Listening => pingICMP_loop cfg pid 0 ios
  end.

(** One round of [pingTCP]'s loop. *)
Definition pingTCP_body (cfg : Config) (host : string) (io : DialIO) : list Stmt :=
  [SentIncr; Do (EDialTimeout host (Timeout cfg))] ++
  match io with
  | DialErr => []
  | DialOk rtt now => [ReceivedIncr; Do EClose; Update rtt now]
  end ++ [Do (ESleep (Interval cfg))].

Definition pingTCP (cfg : Config) (host : string) (ios : list DialIO) : list Stmt :=
  flat_map (pingTCP_body cfg host) ios.

(** What the network answers to one host's goroutine. *)
Record ProbeEnv := mkProbeEnv {
  setup : IcmpSetup;
  icmp_io : list IcmpIO;
  tcp_io : list DialIO
}.

(** The goroutine [main] starts for a host:
    [if cfg.UseICMP { pingICMP(h, s) } else { pingTCP(h, s) }]. *)
Definition prober (cfg : Config) (pid : Z) (host : string) (env : ProbeEnv) : list Stmt :=
  if UseICMP cfg then pingICMP cfg pid (setup env) (icmp_io env)
  else pingTCP cfg host (tcp_io env).

(** [main]'s allocation loop. *)
Definition main_alloc (cfg : Config) : World :=
  {| records := map new_HostStats (Hosts cfg);
     allStats := seq 0 (length (Hosts cfg)) |}.

(** The [case <-ticker.C] branch of [displayGraph]: every record of the
    slice is trimmed in place and copied into its row of the plot; the
    legend numbers the hosts in the order of the slice. *)
Definition displayGraph_tick (w : World)
  : World * (list (list float64) * list (nat * string)) :=
  let recs' := foldl (fun recs p => alter trim p recs) (records w) (allStats w) in
  ({| records := recs'; allStats := allStats w |},
   (map (fun p => plot_row (recs' !!! p)) (allStats w),
    imap (fun i p => (S i, Host (recs' !!! p))) (allStats w))).

(** One round of [displayLoop]: the slice of pointers is sorted in place
    with [sort.Slice], then one row is drawn per pointer. [sort.Slice]
    belongs to Go's library and is a parameter here. *)
Definition displayLoop_iter
    (sort_Slice : (nat -> nat -> bool) -> list nat -> list nat) (w : World)
  : World * list Row :=
  let sorted := sort_Slice (less_Latency (records w)) (allStats w) in
  ({| records := records w; allStats := sorted |},
   map (fun p => row_of (records w !!! p)) sorted).

(** [saveLog]: [data[s.Host] = s.RTTs] for every record of the slice; the
    map is what the encoder writes. *)
Definition saveLog (w : World) : World * gmap string (list Duration) :=
  (w, foldl (fun data p => <[Host (deref w p) := RTTs (deref w p)]> data) ∅ (allStats w)).

End Main.

(** ** The later revision of the program (flags, table display as fallback) *)

Module Part002.

(** One round of [pingICMP]'s loop: as in [main.go], but a failed write
    sleeps before [continue]. *)
Definition pingICMP_body (cfg : Config) (pid : Z) (sq : Z) (io : IcmpIO) : list Stmt :=
  let id := Z.land pid 0xffff in
  [Do (ESetDeadline (Timeout cfg)); Do (EWriteTo id sq); SentIncr] ++
  match io with
  | WriteErr => [Do (ESleep (Interval cfg))]
  | ReadErr => [Do EReadFrom; Do (ESleep (Interval cfg))]
  | ReadOk _ rtt now =>
      [Do EReadFrom; ReceivedIncr; Update rtt now; Do (ESleep (Interval cfg))]
  end.

Fixpoint pingICMP_loop (cfg : Config) (pid : Z) (sq : Z) (ios : list IcmpIO) : list Stmt :=
  match ios with
  | [] => []
  | io :: ios' => pingICMP_body cfg pid sq io ++ pingICMP_loop cfg pid (incr sq) ios'
  end.

Definition pingICMP (cfg : Config) (pid : Z) (setup : IcmpSetup) (ios : list IcmpIO) : list Stmt :=
  match setup with
  | ResolveErr => [Do (ELog "Resolve error")]
  | ListenErr => [Do (ELog "ICMP ListenPacket error")]
  | Listening => pingICMP_loop cfg pid 0 ios
  end.

End Part002.

(** ** The first revision of the program (ICMP only, fixed hosts) *)

Module Part001.

Definition interval : Duration := 1 * 1000000000.

Inductive PingIO :=
| MarshalErr
| PWriteErr
| PReadErr
| PReadOk (pkt : Packet) (rtt : Duration) (now : Time).

(** [err == nil && m.Type == ipv4.ICMPTypeEchoReply] *)
Definition is_echo_reply (pkt : Packet) : bool :=
  match pkt with
  | Unparsable => false
  | IcmpMessage type _ _ => type =? ICMPTypeEchoReply
  end.

(** One round of [ping]'s loop. *)
Definition ping_body (pid : Z) (sq : Z) (io : PingIO) : list Stmt :=
  let id := Z.land pid 0xffff in
  match io with
  | MarshalErr => [Do (ELog "Marshal error")]
  | PWriteErr => [Do (EWriteTo id sq); SentIncr; Do (ELog "WriteTo error")]
  | PReadErr =>
      [Do (EWriteTo id sq); SentIncr;
       Do (ESetDeadline (2 * 1000000000)); Do EReadFrom;
       LossOnly; Do (ESleep interval)]
  | PReadOk pkt rtt now =>
      [Do (EWriteTo id sq); SentIncr;
       Do (ESetDeadline (2 * 1000000000)); Do EReadFrom; ReceivedIncr] ++
      (if is_echo_reply pkt then [Update rtt now; Do (ELog "Ping")] else []) ++
      [Do (ESleep interval)]
  end.

Fixpoint ping_loop (pid : Z) (sq : Z) (ios : list PingIO) : list Stmt :=
  match ios with
  | [] => []
  | io :: ios' => ping_body pid sq io ++ ping_loop pid (incr sq) ios'
  end.

(** [ping]: a failed resolution ends the goroutine, a failed
    [ListenPacket] ends the process ([log.Fatalf]); neither runs a round. *)
Definition ping (pid : Z) (setup : IcmpSetup) (ios : list PingIO) : list Stmt :=
  match setup with
  | ResolveErr => [Do (ELog "Failed to resolve")]
  | ListenErr => [Do (ELog "ListenPacket error")]
  | Listening => ping_loop pid 0 ios
  end.

End Part001.

(** ** One host's record under its two goroutines

    The probe goroutine and the graph display take turns; a turn of the
    display is its locked block on this record. *)

Inductive Turn := ProberTurn | DisplayTurn.

Fixpoint interleave (sch : list Turn) (p : list Stmt) : list Stmt :=
  match sch with
  | [] => []
  | DisplayTurn :: sch' => GraphTick :: interleave sch' p
  | ProberTurn :: sch' =>
      match p with
      | [] => interleave sch' []
      | c :: p' => c :: interleave sch' p'
      end
  end.

(** A host's goroutine in the world: it runs statements [p] from locals
    [l] on the record it was given a pointer to. *)
Definition prober_step (i : nat) (p : list Stmt) (l : Locals) (w : World) : Locals * World :=
  let st' := final p (l, deref w i) in
  (fst st', {| records := <[i := snd st']> (records w); allStats := allStats w |}).

(** ** Scenarios used below *)

Definition ms (n : Z) : Duration := n * 1000000.

(** [interval: 1s], [timeout: 2s], TCP mode, one host. *)
Definition cfg_tcp : Config := mkConfig ["example.org:80"] (ms 1000) (ms 2000) false.

(** The same in ICMP mode. *)
Definition cfg_icmp : Config := mkConfig ["example.org"] (ms 1000) (ms 2000) true.

(** Sixty consecutive successes: sample [k] took [k] ms and was stamped at
    second [k]. *)
Definition sixty : list DialIO :=
  map (fun k => DialOk (ms (Z.of_nat k)) (ms (1000 * Z.of_nat k))) (seq 1 60).

Definition fresh (host : string) : State := (locals0, new_HostStats host).

(** Successes and failures alternate for ten rounds (five of each). *)
Definition alternating : list DialIO :=
  flat_map (fun k => [DialOk (ms (Z.of_nat k)) (ms (1000 * Z.of_nat k)); DialErr]) (seq 1 5).

(** ** Basic facts about running statements *)

(** The statements that touch no field of the record. *)
Definition local_stmt (c : Stmt) : bool :=
  match c with
  | SentIncr | ReceivedIncr | Do _ => true
  | Update _ _ | LossOnly | GraphTick => false
  end.

(** ** Rounds that fail, rounds that succeed *)

(** "A matching echo-reply to this process's echo-request": an echo reply
    that carries the identifier and the sequence number of the request (both
    16 bits wide on the wire). *)
Definition matching_reply (pid sq : Z) (pkt : Packet) : bool :=
  match pkt with
  | Unparsable => false
  | IcmpMessage type id s =>
      (type =? ICMPTypeEchoReply) && (id =? Z.land pid 0xffff) && (s =? Z.land sq 0xffff)
  end.

(** ICMP destination unreachable, as some router may send it. *)
Definition unreachable : Packet := IcmpMessage 3 0 0.

(** An echo reply to another process's request. *)
Definition foreign_reply : Packet := IcmpMessage ICMPTypeEchoReply 7 0.

(** The echo reply to the request [pid] sends with sequence number [sq]. *)
Definition echo_reply (pid sq : Z) : Packet :=
  IcmpMessage ICMPTypeEchoReply (Z.land pid 0xffff) (Z.land sq 0xffff).

(** Two rounds of the ICMP loop: the first request is answered by its echo
    reply after 5 ms; the second is not answered by the host, and 3 ms
    after it a router's destination-unreachable message arrives on the
    socket. *)
Definition reply_then_unreachable : list IcmpIO :=
  [ReadOk (echo_reply 4242 0) (ms 5) (ms 1000); ReadOk unreachable (ms 3) (ms 2000)].

(** The same two rounds, as the first revision's loop sees them. *)
Definition part001_reply_then_unreachable : list Part001.PingIO :=
  [Part001.PReadOk (echo_reply 4242 0) (ms 5) (ms 1000);
   Part001.PReadOk unreachable (ms 3) (ms 2000)].

(** ** History *)

(** The times at which a line of statements stamps a sample. *)
Definition stamps (p : list Stmt) : list Time :=
  flat_map (fun c => match c with Update _ now => [now] | _ => [] end) p.

Definition tcp_stamps (ios : list DialIO) : list Time :=
  flat_map (fun io => match io with DialOk _ now => [now] | DialErr => [] end) ios.

Definition icmp_stamps (ios : list IcmpIO) : list Time :=
  flat_map (fun io => match io with ReadOk _ _ now => [now] | _ => [] end) ios.

(** The round-trip times of the rounds in which [net.DialTimeout] returned
    no error. *)
Definition tcp_rtts (ios : list DialIO) : list Duration :=
  flat_map (fun io => match io with DialOk rtt _ => [rtt] | DialErr => [] end) ios.

(** The round-trip times of the rounds in which [conn.ReadFrom] returned no
    error, whatever the datagram. *)
Definition icmp_rtts (ios : list IcmpIO) : list Duration :=
  flat_map (fun io => match io with ReadOk _ rtt _ => [rtt] | _ => [] end) ios.

(** ** Counters and the loss quotient *)

(** What a state must satisfy at every point. *)
Definition good (st : State) : Prop :=
  0 <= received (fst st) <= sent (fst st) /\ sent (fst st) < 2 ^ 63 /\
  (0 <= PacketLoss (snd st))%Q /\ (PacketLoss (snd st) <= 100)%Q.

(** Neither counter went down between two states. *)
Definition counters_grow (st st' : State) : Prop :=
  sent (fst st) <= sent (fst st') /\ received (fst st) <= received (fst st').

(** [R] relates each state of the list to the next, starting from [st]. *)
Fixpoint chain (R : State -> State -> Prop) (st : State) (l : list State) : Prop :=
  match l with
  | [] => True
  | st' :: l' => R st st' /\ chain R st' l'
  end.

(** A line of statements read from counters [s] and [r]: no increment
    overflows, [received] is incremented only below [sent], and the loss is
    computed only once something was sent. *)
Fixpoint safe (p : list Stmt) (s r : Z) : Prop :=
  match p with
  | [] => True
  | SentIncr :: p' => s + 1 < 2 ^ 63 /\ safe p' (s + 1) r
  | ReceivedIncr :: p' => r + 1 <= s /\ safe p' s (r + 1)
  | Update _ _ :: p' | LossOnly :: p' => 1 <= s /\ safe p' s r
  | Do _ :: p' | GraphTick :: p' => safe p' s r
  end.

(** ** The table display *)

(** [insertionSortLessFunc], which Go's [sort.Slice] runs on a slice of at
    most twelve elements: each element in turn sinks toward the front past
    the elements it is less than. [sink] works on the prefix reversed, its
    head being the neighbour on the left. *)
Fixpoint sink {A : Type} (less : A -> A -> bool) (x : A) (rev_prefix : list A) : list A :=
  match rev_prefix with
  | [] => [x]
  | y :: ys => if less x y then y :: sink less x ys else x :: y :: ys
  end.

Definition insertionSort {A : Type} (less : A -> A -> bool) (l : list A) : list A :=
  rev (foldl (fun acc x => sink less x acc) [] l).

(** The latency shown in a row. *)
Definition row_latency (r : Row) : Duration := snd (fst r).

(** ** Slices as Go has them

    A slice is a window on a backing array: the array, the offset of the
    window, its length and its capacity. [s.RTTs] is such a window on an
    array of durations, and [data[s.Host] = s.RTTs] in [saveLog] copies the
    window, not the array. The value-level record above is what one reads
    through the window ([abs]). [Timestamps] is never handed to anyone and
    stays a value. *)

Module Heap.

Record slice := mkSlice {
  arr : nat;
  off : nat;
  len : nat;
  cap : nat
}.

(** The [nil] slice of a fresh record. *)
Definition nil_slice : slice := mkSlice 0 0 0 0.

(** The backing arrays, in the order they were allocated. *)
Abbreviation memory := (list (list Z)).

(** What is read through a slice. *)
Definition view (m : memory) (s : slice) : list Duration :=
  take (len s) (drop (off s) (m !!! arr s)).

(** [s[lo:]] *)
Definition reslice_from (lo : nat) (s : slice) : slice :=
  mkSlice (arr s) (off s + lo) (len s - lo) (cap s - lo).

(** References to a record's fields: the window where the value-level
    record has the list. *)
Record HostStatsRef := mkRef {
  rHost : string;
  rLatency : Duration;
  rPacketLoss : float64;
  rTimestamps : list Time;
  rRTTs : slice
}.

Definition new_HostStatsRef (host : string) : HostStatsRef :=
  mkRef host 0 0%Q [] nil_slice.

#[global] Instance HostStatsRef_inhabited : Inhabited HostStatsRef :=
  populate (new_HostStatsRef "").

(** The record that is read through the references. *)
Definition abs (m : memory) (r : HostStatsRef) : HostStats :=
  {| Host := rHost r;
     Latency := rLatency r;
     PacketLoss := rPacketLoss r;
     Timestamps := rTimestamps r;
     RTTs := view m (rRTTs r) |}.

Record RefWorld := mkRefWorld {
  mem : memory;
  refs : list HostStatsRef;
  slice_of_refs : list nat            (* [allStats] *)
}.

Definition abs_world (w : RefWorld) : World :=
  {| records := map (abs (mem w)) (refs w); allStats := slice_of_refs w |}.

(** [if len(s.RTTs) > 50 { s.RTTs = s.RTTs[len(s.RTTs)-50:] }] *)
Definition trim_ref (r : HostStatsRef) : HostStatsRef :=
  {| rHost := rHost r;
     rLatency := rLatency r;
     rPacketLoss := rPacketLoss r;
     rTimestamps := rTimestamps r;
     rRTTs := if (50 <? len (rRTTs r))%nat
              then reslice_from (len (rRTTs r) - 50) (rRTTs r)
              else rRTTs r |}.

(** What the encoder reads through the windows a map holds. *)
Definition encode (m : memory) (data : gmap string slice) : gmap string (list Duration) :=
  view m <$> data.

(** A goroutine (the probe loop of host [i], or the graph display on
    record [i]) runs statement [c] with locals [l]. *)
Abbreviation Write := (nat * Stmt * Locals)%type.

Section Runtime.

(** The capacity the runtime picks when [append] has to move a slice of
    capacity [old] to hold [needed] elements; it is never less than
    [needed]. *)
Variable growslice : nat -> nat -> nat.

(** [append(s, x)]: in place when there is room after the window, else in
    a new array that starts with a copy of the window. *)
Definition append (m : memory) (s : slice) (x : Duration) : memory * slice :=
  if (len s <? cap s)%nat then
    (alter (fun a => <[(off s + len s)%nat := x]> a) (arr s) m,
     mkSlice (arr s) (off s) (S (len s)) (cap s))
  else
    let newcap := Nat.max (S (len s)) (growslice (cap s) (S (len s))) in
    (m ++ [view m s ++ x :: replicate (newcap - S (len s)) 0],
     mkSlice (length m) 0 (S (len s)) newcap).

(** The block both probe loops run under the lock, on references. *)
Definition update_ref (l : Locals) (rtt : Duration) (now : Time)
    (mr : memory * HostStatsRef) : memory * HostStatsRef :=
  let '(m, r) := mr in
  let '(m', s') := append m (rRTTs r) rtt in
  (m', {| rHost := rHost r;
          rLatency := rtt;
          rPacketLoss := loss_percent (sent l) (received l);
          rTimestamps := rTimestamps r ++ [now];
          rRTTs := s' |}).

(** A statement of a goroutine, on references. *)
Definition exec_stmt_ref (c : Stmt) (l : Locals) (mr : memory * HostStatsRef)
  : Locals * (memory * HostStatsRef) :=
  let '(m, r) := mr in
  match c with
  | SentIncr => (mkLocals (incr (sent l)) (received l), mr)
  | ReceivedIncr => (mkLocals (sent l) (incr (received l)), mr)
  | Update rtt now => (l, update_ref l rtt now mr)
  | LossOnly =>
      (l, (m, {| rHost := rHost r; rLatency := rLatency r;
                 rPacketLoss := loss_percent (sent l) (received l);
                 rTimestamps := rTimestamps r; rRTTs := rRTTs r |}))
  | Do _ => (l, mr)
  | GraphTick => (l, (m, trim_ref r))
  end.

Definition exec_write (e : Write) (w : RefWorld) : RefWorld :=
  let '(i, c, l) := e in
  match refs w !! i with
  | None => w
  | Some r =>
      let '(m', r') := snd (exec_stmt_ref c l (mem w, r)) in
      {| mem := m'; refs := <[i := r']> (refs w); slice_of_refs := slice_of_refs w |}
  end.

Definition exec_writes (es : list Write) (w : RefWorld) : RefWorld :=
  foldl (fun w e => exec_write e w) w es.

End Runtime.

(** [main]'s allocation loop. *)
Definition main_alloc (cfg : Config) : RefWorld :=
  {| mem := [];
     refs := map new_HostStatsRef (Hosts cfg);
     slice_of_refs := seq 0 (length (Hosts cfg)) |}.

(** [saveLog]'s loop: [data[s.Host] = s.RTTs] stores the window itself. *)
Definition saveLog (w : RefWorld) : RefWorld * gmap string slice :=
  (w, foldl (fun data p => <[rHost (refs w !!! p) := rRTTs (refs w !!! p)]> data)
        ∅ (slice_of_refs w)).

(** The window lies within its array (or has no capacity at all). *)
Definition wf (m : memory) (s : slice) : Prop :=
  (len s <= cap s)%nat /\
  (cap s = 0%nat \/ (arr s < length m)%nat /\ (off s + cap s <= length (m !!! arr s))%nat).

(** The array of the saved window [sv] exists (or the window is empty). *)
Definition kept (m : memory) (sv : slice) : Prop :=
  len sv = 0%nat \/ (arr sv < length m)%nat.

(** An [append] through [c] cannot write inside the saved window [sv]. *)
Definition clear_of (sv c : slice) : Prop :=
  len sv = 0%nat \/ cap c = 0%nat \/ arr c <> arr sv \/
  (off sv + len sv <= off c + len c)%nat.

(** Two windows that cannot share an array. *)
Definition apart (c1 c2 : slice) : Prop :=
  cap c1 = 0%nat \/ cap c2 = 0%nat \/ arr c1 <> arr c2.

(** Every record's window lies within an array, and no two records share
    one. *)
Definition owned (w : RefWorld) : Prop :=
  (forall i r, refs w !! i = Some r -> wf (mem w) (rRTTs r)) /\
  (forall i j ri rj, refs w !! i = Some ri -> refs w !! j = Some rj -> i <> j ->
     apart (rRTTs ri) (rRTTs rj)).

End Heap.

(** ** Worlds used as examples *)

Definition cfg_two : Config := mkConfig ["a:80"; "b:80"] (ms 1000) (ms 2000) false.

(** Host [a] answered in 30 ms, host [b] in 10 ms. *)
Definition world_30_10 : World :=
  let w0 := Main.main_alloc cfg_two in
  let w1 := snd (prober_step 0 (Main.pingTCP cfg_two "a:80" [DialOk (ms 30) (ms 1000)]) locals0 w0) in
  snd (prober_step 1 (Main.pingTCP cfg_two "b:80" [DialOk (ms 10) (ms 1000)]) locals0 w1).

(** Two rounds of the table display, sorting as [sort.Slice] does on a
    short slice: [a] answered in 20 ms and [b] in 10 ms before the first
    round, and both in 15 ms before the second. *)
Definition table_two_rounds : list Row * list Row :=
  let w0 := Main.main_alloc cfg_two in
  let '(la, w1) := prober_step 0 (Main.pingTCP_body cfg_two "a:80" (DialOk (ms 20) (ms 1000))) locals0 w0 in
  let '(lb, w2) := prober_step 1 (Main.pingTCP_body cfg_two "b:80" (DialOk (ms 10) (ms 1000))) locals0 w1 in
  let '(w3, rows1) := Main.displayLoop_iter (@insertionSort nat) w2 in
  let '(_, w4) := prober_step 0 (Main.pingTCP_body cfg_two "a:80" (DialOk (ms 15) (ms 2000))) la w3 in
  let '(_, w5) := prober_step 1 (Main.pingTCP_body cfg_two "b:80" (DialOk (ms 15) (ms 2000))) lb w4 in
  let '(_, rows2) := Main.displayLoop_iter (@insertionSort nat) w5 in
  (rows1, rows2).

(** One host after sixty successes. *)
Definition world_sixty : World :=
  snd (prober_step 0 (Main.pingTCP cfg_tcp "example.org:80" sixty) locals0 (Main.main_alloc cfg_tcp)).

(** A runtime that doubles the capacity. *)
Definition doubling (old needed : nat) : nat := (2 * old)%nat.

(** The same sixty successes, on references. *)
Definition refworld_sixty : Heap.RefWorld :=
  Heap.exec_writes doubling
    (map (fun k => (0%nat, Update (ms (Z.of_nat k)) (ms (1000 * Z.of_nat k)),
                    mkLocals (Z.of_nat k) (Z.of_nat k))) (seq 1 60))
    (Heap.main_alloc cfg_tcp).

(** ** A run of ten rounds with the display ticking *)

Definition env_alternating : Main.ProbeEnv :=
  Main.mkProbeEnv Listening [ReadErr; WriteErr] alternating.

(** Two statements of the probe loop, then a tick, and so on. *)
Definition sch_two_one : list Turn :=
  flat_map (fun _ => [ProberTurn; ProberTurn; DisplayTurn]) (seq 0 30).

(** ** The rest of [main.go]: resolution, drawing, the graph display's loop *)

(** An [error] is its message; [nil] is [None]. *)
Abbreviation error := (option string).

Section Resolve.

(** [net.IP] is a slice of bytes; [IP.String] belongs to Go's library. *)
Variable IP_String : list Z -> string.

(** [resolveHost], on what [net.LookupIP(host)] returned. *)
Definition resolveHost (lookup : list (list Z) * error) : string * error :=
  let '(ips, err) := lookup in
  if bool_decide (err <> None) || bool_decide (length ips = 0%nat)
  then (EmptyString, err)
  else (IP_String (ips !!! 0%nat), None).

(** The two calls before [pingICMP]'s loop: [resolveHost], then
    [icmp.ListenPacket], each followed by [if err != nil { log; return }]. *)
Definition icmp_setup (lookup : list (list Z) * error) (listen : error) : IcmpSetup :=
  match snd (resolveHost lookup) with
  | Some _ => ResolveErr
  | None => match listen with Some _ => ListenErr | None => Listening end
  end.

End Resolve.

(** [tcell.Style], as far as [displayLoop] uses it. *)
Inductive Style := StyleDefault | StyleBold.

(** A call [s.SetContent(x, y, c, nil, style)]. *)
Record Cell := mkCell {
  cell_x : Z;
  cell_y : Z;
  cell_rune : Z;
  cell_style : Style
}.

(** A string is given by its runes (so it is valid UTF-8); [RuneLen] is the
    number of bytes of a rune's encoding. *)
Definition RuneLen (r : Z) : Z :=
  if r <? 0x80 then 1 else if r <? 0x800 then 2 else if r <? 0x10000 then 3 else 4.

(** [len(s)], in bytes. *)
Definition byte_len (s : list Z) : Z := foldr (fun r n => RuneLen r + n) 0 s.

(** [strings.Join(elems, sep)] *)
Fixpoint Join (elems : list (list Z)) (sep : list Z) : list Z :=
  match elems with
  | [] => []
  | e :: rest =>
      match rest with
      | [] => e
      | _ :: _ => e ++ sep ++ Join rest sep
      end
  end.

(** [for i, c := range line]: each rune with the byte index it starts at,
    [i] being the index of the first rune of [line]. *)
Fixpoint range_string (i : Z) (line : list Z) : list (Z * Z) :=
  match line with
  | [] => []
  | c :: line' => (i, c) :: range_string (i + RuneLen c) line'
  end.

(** Four spaces. *)
Definition four_spaces : list Z := [32; 32; 32; 32].

(** [drawText]: the calls to [SetContent], in order. *)
Definition drawText (x y : Z) (style : Style) (txt : list (list Z)) : list Cell :=
  map (fun ic => mkCell (int_add x (fst ic)) y (snd ic) style)
      (range_string 0 (Join txt four_spaces)).

(** [drawText(screen, 0, 0, ..., "Host", "Latency", "PacketLoss")]: the
    texts of the table's header, as runes. *)
Definition header_texts : list (list Z) :=
  [[72; 111; 115; 116];
   [76; 97; 116; 101; 110; 99; 121];
   [80; 97; 99; 107; 101; 116; 76; 111; 115; 115]].

(** What [select] yields in [displayGraph]'s loop: a tick, or an event of
    the terminal with its type and identifier. *)
Inductive EventType := KeyboardEvent | MouseEvent | ResizeEvent.

Inductive Select :=
| TickerC
| UiEvent (type : EventType) (id : string).

(** [e.Type == termui.KeyboardEvent && e.ID == "q"] *)
Definition is_quit (type : EventType) (id : string) : bool :=
  match type with
  | KeyboardEvent => String.eqb id "q"
  | _ => false
  end.

(** [displayGraph]'s loop [for run { select { ... } }], on the answers of
    [select]: the final [run], the world and what was rendered. *)
Fixpoint displayGraph_loop (sel : list Select) (run : bool) (w : World)
  : bool * World * list (list (list float64) * list (nat * string)) :=
  match sel with
  | [] => (run, w, [])
  | ev :: sel' =>
      if run then
        match ev with
        | TickerC =>
            let '(w', frame) := Main.displayGraph_tick w in
            let '(r, w'', frames) := displayGraph_loop sel' run w' in
            (r, w'', frame :: frames)
        | UiEvent type id =>
            displayGraph_loop sel' (if is_quit type id then false else run) w
        end
      else (run, w, [])
  end.

(** A goroutine runs statement [c] with locals [l] on the record of
    host [i]. *)
Definition world_write (e : nat * Stmt * Locals) (w : World) : World :=
  let '(i, c, l) := e in
  {| records := alter (fun s => snd (fst (exec_stmt c (l, s)))) i (records w);
     allStats := allStats w |}.

Definition world_writes (es : list (nat * Stmt * Locals)) (w : World) : World :=
  foldl (fun w e => world_write e w) w es.

(** ** The table display among the probe loops *)

(** The statement that writes [Latency]. *)
Definition sets_Latency (c : Stmt) : bool :=
  match c with
  | Update _ _ => true
  | _ => false
  end.

(** [for i, s := range stats]: the rows of a round of [displayLoop], each
    read under the lock of its record when its turn comes. [during k] is
    what the other goroutines ran on the records between the row before
    (the sort, for the first row) and row [k]. *)
Fixpoint draw_rows (ptrs : list nat) (during : nat -> list (nat * Stmt * Locals))
    (k : nat) (w : World) : World * list Row :=
  match ptrs with
  | [] => (w, [])
  | p :: ptrs' =>
      let w1 := world_writes (during k) w in
      let '(w2, rows) := draw_rows ptrs' during (S k) w1 in
      (w2, row_of (deref w1 p) :: rows)
  end.

(** One round of [displayLoop] with the other goroutines running: the
    sort, on the latencies as they are when it starts, then the rows. *)
Definition displayLoop_round
    (sort_Slice : (nat -> nat -> bool) -> list nat -> list nat)
    (during : nat -> list (nat * Stmt * Locals)) (w : World) : World * list Row :=
  let sorted := sort_Slice (less_Latency (records w)) (allStats w) in
  draw_rows sorted during 0 {| records := records w; allStats := sorted |}.

(** Host [b]'s next probe, answered in 40 ms, lands after the sort and
    before the first row is drawn. *)
Definition probe_after_sort (k : nat) : list (nat * Stmt * Locals) :=
  match k with
  | O => [(1%nat, Update (ms 40) (ms 2000), mkLocals 2 2)]
  | S _ => []
  end.

(** Before every row the graph display ticks on host [a] and a probe to
    host [b] fails. *)
Definition ticks_and_failures (k : nat) : list (nat * Stmt * Locals) :=
  [(0%nat, GraphTick, mkLocals 1 1); (1%nat, SentIncr, mkLocals (1 + Z.of_nat k) 1)].

(** ** What a line of statements records and asks *)

(** The round-trip times a line of statements records. *)
Definition rtts (p : list Stmt) : list Duration :=
  flat_map (fun c => match c with Update rtt _ => [rtt] | _ => [] end) p.

(** [uint16(x)]: the low 16 bits. *)
Definition uint16 (x : Z) : Z := x mod 2 ^ 16.

(** The echo requests among the effects, as their datagrams carry them:
    [icmp.Echo]'s marshalling writes [uint16(p.ID)] and [uint16(p.Seq)] into
    the two 16-bit fields of the header, whatever the [int]s of the
    message hold. *)
Definition requests (t : list Effect) : list (Z * Z) :=
  flat_map (fun e => match e with EWriteTo id sq => [(uint16 id, uint16 sq)] | _ => [] end) t.

(** The sleeps among the effects. *)
Definition sleeps (t : list Effect) : list Duration :=
  flat_map (fun e => match e with ESleep d => [d] | _ => [] end) t.

(** The rounds of an ICMP run whose write did not fail. *)
Definition written (ios : list IcmpIO) : list IcmpIO :=
  List.filter (fun io => match io with WriteErr => false | _ => true end) ios.

(** A round of the first revision's [ping] in which no datagram is read. *)
Definition no_datagram (io : Part001.PingIO) : bool :=
  match io with
  | Part001.PReadOk _ _ _ => false
  | _ => true
  end.



(** * Properties *)

(** ** Basic facts about running statements *)

Lemma exec_app (p q : list Stmt) (st : State) :
  exec (p ++ q) st =
  (fst (exec q (fst (exec p st))), snd (exec p st) ++ snd (exec q (fst (exec p st)))).
Proof.
  revert st. induction p as [|c p IH]; intros st; simpl.
  - destruct (exec q st); reflexivity.
  - destruct (exec_stmt c st) as [st1 t1]. rewrite IH.
    destruct (exec p st1) as [st2 t2]; simpl.
    destruct (exec q st2) as [st3 t3]; simpl.
    by rewrite app_assoc.
Qed.

Lemma final_app (p q : list Stmt) (st : State) :
  final (p ++ q) st = final q (final p st).
Proof. unfold final. by rewrite exec_app. Qed.

Lemma effects_app (p q : list Stmt) (st : State) :
  effects (p ++ q) st = effects p st ++ effects q (final p st).
Proof. unfold effects, final. by rewrite exec_app. Qed.

Lemma final_cons (c : Stmt) (p : list Stmt) (st : State) :
  final (c :: p) st = final p (fst (exec_stmt c st)).
Proof.
  unfold final; simpl. destruct (exec_stmt c st) as [st1 t1]; simpl.
  by destruct (exec p st1).
Qed.

Lemma final_nil (st : State) : final [] st = st.
Proof. reflexivity. Qed.

Lemma points_app (p q : list Stmt) (st : State) :
  points (p ++ q) st = points p st ++ points q (final p st).
Proof.
  revert st. induction p as [|c p IH]; intros st; simpl; [done|].
  by rewrite IH, final_cons.
Qed.

Lemma last_points (p : list Stmt) (st : State) :
  last (st :: points p st) = Some (final p st).
Proof.
  revert st. induction p as [|c p IH]; intros st; [done|].
  rewrite final_cons. simpl points. by rewrite last_cons_cons, IH.
Qed.

Lemma local_stmt_record (c : Stmt) (st : State) :
  local_stmt c = true -> snd (fst (exec_stmt c st)) = snd st.
Proof. destruct st as [l s]; destruct c; simpl; congruence. Qed.

Lemma local_stmts_record (p : list Stmt) (st : State) :
  forallb local_stmt p = true -> snd (final p st) = snd st.
Proof.
  revert st. induction p as [|c p IH]; intros st H; [done|].
  simpl in H. apply andb_true_iff in H as [Hc Hp].
  rewrite final_cons, IH by done. by apply local_stmt_record.
Qed.

(** ** The trimmed history *)

Lemma length_last50 {A : Type} (s : list A) : (length (last50 s) <= 50)%nat.
Proof.
  unfold last50. destruct (50 <? length s)%nat eqn:E.
  - rewrite length_drop. lia.
  - apply Nat.ltb_ge in E. lia.
Qed.

Lemma last50_suffix {A : Type} (s : list A) :
  s = take (length s - 50) s ++ last50 s.
Proof.
  unfold last50. destruct (50 <? length s)%nat eqn:E.
  - by rewrite take_drop.
  - apply Nat.ltb_ge in E. replace (length s - 50)%nat with 0%nat by lia. done.
Qed.

Lemma last50_short {A : Type} (s : list A) : (length s <= 50)%nat -> last50 s = s.
Proof.
  intros H. unfold last50. destruct (50 <? length s)%nat eqn:E; [|done].
  apply Nat.ltb_lt in E. lia.
Qed.

Lemma last50_idemp {A : Type} (s : list A) : last50 (last50 s) = last50 s.
Proof. apply last50_short, length_last50. Qed.

Lemma last_last50 {A : Type} (s : list A) : last (last50 s) = last s.
Proof.
  unfold last50. destruct (50 <? length s)%nat eqn:E; [|done].
  apply Nat.ltb_lt in E. rewrite !last_lookup, lookup_drop, length_drop.
  f_equal. lia.
Qed.

Lemma trim_idemp (s : HostStats) : trim (trim s) = trim s.
Proof. unfold trim; simpl. by rewrite last50_idemp. Qed.

(** ** Rounds that fail, rounds that succeed *)

(** A failed round of either loop of [main.go] leaves the whole record as
    it was: only [sent] moves. *)
Lemma failed_round_keeps_record (cfg : Config) (pid sq : Z) (host : string) (st : State) :
  snd (final (Main.pingTCP_body cfg host DialErr) st) = snd st /\
  snd (final (Main.pingICMP_body cfg pid sq WriteErr) st) = snd st /\
  snd (final (Main.pingICMP_body cfg pid sq ReadErr) st) = snd st.
Proof. repeat split; by apply local_stmts_record. Qed.

Lemma failed_round_counts (cfg : Config) (pid sq : Z) (host : string) (st : State) :
  let sent_only := mkLocals (incr (sent (fst st))) (received (fst st)) in
  fst (final (Main.pingTCP_body cfg host DialErr) st) = sent_only /\
  fst (final (Main.pingICMP_body cfg pid sq WriteErr) st) = sent_only /\
  fst (final (Main.pingICMP_body cfg pid sq ReadErr) st) = sent_only.
Proof. destruct st as [l s]; repeat split. Qed.

(** A successful round stores the quotient of the counters it has just
    incremented, the new sample and its round-trip time. *)
Lemma tcp_success_round (cfg : Config) (host : string) (rtt : Duration) (now : Time) (st : State) :
  let l' := mkLocals (incr (sent (fst st))) (incr (received (fst st))) in
  final (Main.pingTCP_body cfg host (DialOk rtt now)) st = (l', update l' rtt now (snd st)).
Proof. by destruct st as [l s]. Qed.

Lemma icmp_success_round (cfg : Config) (pid sq : Z) (pkt : Packet)
    (rtt : Duration) (now : Time) (st : State) :
  let l' := mkLocals (incr (sent (fst st))) (incr (received (fst st))) in
  final (Main.pingICMP_body cfg pid sq (ReadOk pkt rtt now)) st = (l', update l' rtt now (snd st)).
Proof. by destruct st as [l s]. Qed.

(** C1, on the code: a failed attempt does not recompute [PacketLoss].
    In every state a failed round of either loop of [main.go] increments
    [sent] and leaves the stored [PacketLoss] as it was. So after one
    failed attempt of a fresh loop, in either mode, one probe was sent and
    none received, the loss formula gives 100, and the record still holds
    the initial 0; and after successes and failures alternating for ten
    rounds the record holds 400/9 (the value of the ninth round), not 50. *)
Theorem C1_loss_stale_after_failed_attempt :
  (forall cfg pid sq host st,
     let tcp := final (Main.pingTCP_body cfg host DialErr) st in
     let icmp_w := final (Main.pingICMP_body cfg pid sq WriteErr) st in
     let icmp_r := final (Main.pingICMP_body cfg pid sq ReadErr) st in
     (sent (fst tcp) = incr (sent (fst st)) /\ PacketLoss (snd tcp) = PacketLoss (snd st)) /\
     (sent (fst icmp_w) = incr (sent (fst st)) /\ PacketLoss (snd icmp_w) = PacketLoss (snd st)) /\
     (sent (fst icmp_r) = incr (sent (fst st)) /\ PacketLoss (snd icmp_r) = PacketLoss (snd st))) /\
  (let after_tcp := final (Main.pingTCP cfg_tcp "example.org:80" [DialErr]) (fresh "example.org:80") in
   let after_icmp := final (Main.pingICMP cfg_icmp 4242 Listening [ReadErr]) (fresh "example.org") in
   let after_ten := final (Main.pingTCP cfg_tcp "example.org:80" alternating) (fresh "example.org:80") in
   (fst after_tcp = mkLocals 1 0 /\ PacketLoss (snd after_tcp) = 0%Q /\
    (loss_percent 1 0 == 100)%Q) /\
   (fst after_icmp = mkLocals 1 0 /\ PacketLoss (snd after_icmp) = 0%Q) /\
   (fst after_ten = mkLocals 10 5 /\ (PacketLoss (snd after_ten) == 400 # 9)%Q /\
    (loss_percent 10 5 == 50)%Q)).
Proof.
  split.
  - intros cfg pid sq host st. cbn zeta.
    destruct (failed_round_keeps_record cfg pid sq host st) as (H1 & H2 & H3).
    destruct (failed_round_counts cfg pid sq host st) as (K1 & K2 & K3).
    rewrite H1, H2, H3, K1, K2, K3. by repeat split.
  - vm_compute. repeat split; congruence.
Qed.

(** What the first revision's [ping] does on a read error: the loss is
    recomputed from the counters. *)
Lemma part001_read_error_recomputes (pid sq : Z) (st : State) :
  PacketLoss (snd (final (Part001.ping_body pid sq Part001.PReadErr) st)) =
  loss_percent (incr (sent (fst st))) (received (fst st)).
Proof. by destruct st as [l s]. Qed.

(** C3, on the code: [pingICMP] never looks at what [ReadFrom] returned.
    Whatever datagram arrives before the deadline gives the same state as
    any other, and a destination-unreachable message, a reply to another
    process or unparsable bytes are each counted as received, with a sample
    appended. *)
Theorem C3_any_datagram_counts_as_reply :
  (forall cfg pid sq pkt pkt' rtt now st,
     final (Main.pingICMP_body cfg pid sq (ReadOk pkt rtt now)) st =
     final (Main.pingICMP_body cfg pid sq (ReadOk pkt' rtt now)) st) /\
  Forall (fun pkt =>
     matching_reply 4242 0 pkt = false /\
     final (Main.pingICMP cfg_icmp 4242 Listening [ReadOk pkt (ms 3) (ms 1000)]) (fresh "example.org")
     = (mkLocals 1 1,
        mkHostStats "example.org" (ms 3) 0%Q [ms 1000] [ms 3]))
    [unreachable; foreign_reply; Unparsable].
Proof.
  split; [by intros; rewrite !icmp_success_round|].
  repeat constructor.
Qed.

(** The first revision appended a sample only for an echo reply. *)
Lemma part001_checks_type (pid sq : Z) (rtt : Duration) (now : Time) (st : State) :
  snd (final (Part001.ping_body pid sq (Part001.PReadOk unreachable rtt now)) st) = snd st.
Proof. by destruct st as [l s]. Qed.

(** Over the whole life of a record, under any statements of its
    goroutines, [Latency] is the newest sample of the history, and zero
    while there is none. *)
Lemma latency_is_newest_sample (host : string) (p : list Stmt) :
  let s := snd (final p (fresh host)) in
  Latency s = default 0 (last (RTTs s)).
Proof.
  cbn zeta.
  assert (H : forall st, Latency (snd st) = default 0 (last (RTTs (snd st))) ->
            Latency (snd (final p st)) = default 0 (last (RTTs (snd (final p st))))).
  { induction p as [|c p IH]; intros st Hst; [done|].
    rewrite final_cons. apply IH. destruct st as [l s].
    destruct c; cbn [exec_stmt fst snd update loss_only trim Latency RTTs] in *; try done.
    - by rewrite last_snoc.
    - by rewrite last_last50. }
  by apply H.
Qed.

(** What a run of [pingTCP] leaves in the history: the round-trip time of
    every round whose dial returned no error, in order. *)
Lemma pingTCP_history (cfg : Config) (host : string) (ios : list DialIO) (st : State) :
  RTTs (snd (final (Main.pingTCP cfg host ios) st)) = RTTs (snd st) ++ tcp_rtts ios.
Proof.
  revert st. induction ios as [|io ios IH]; intros st.
  - by rewrite app_nil_r.
  - change (Main.pingTCP cfg host (io :: ios))
      with (Main.pingTCP_body cfg host io ++ Main.pingTCP cfg host ios).
    rewrite final_app, IH. destruct io as [|rtt now].
    + destruct (failed_round_keeps_record cfg 0 0 host st) as (-> & _ & _). done.
    + rewrite tcp_success_round. cbn [snd update RTTs tcp_rtts flat_map app].
      by rewrite <- app_assoc.
Qed.

(** What a run of [pingICMP]'s loop leaves in the history: the round-trip
    time of every round in which a datagram was read, in order. *)
Lemma pingICMP_loop_history (cfg : Config) (pid sq : Z) (ios : list IcmpIO) (st : State) :
  RTTs (snd (final (Main.pingICMP_loop cfg pid sq ios) st)) = RTTs (snd st) ++ icmp_rtts ios.
Proof.
  revert sq st. induction ios as [|io ios IH]; intros sq st.
  - by rewrite app_nil_r.
  - change (Main.pingICMP_loop cfg pid sq (io :: ios))
      with (Main.pingICMP_body cfg pid sq io ++ Main.pingICMP_loop cfg pid (incr sq) ios).
    rewrite final_app, IH.
    destruct (failed_round_keeps_record cfg pid sq "" st) as (_ & Hw & Hr).
    destruct io as [| |pkt rtt now].
    + by rewrite Hw.
    + by rewrite Hr.
    + rewrite icmp_success_round. cbn [snd update RTTs icmp_rtts flat_map app].
      by rewrite <- app_assoc.
Qed.

(** C6, on the code: [pingICMP] lets a datagram that is no reply to its
    request change [Latency]. After a run of either loop of [main.go] on
    a new record the history holds the round-trip time of every round the
    loop took as successful, and [Latency] is the last of them (zero when
    there is none): rounds in which the dial, the write or the read
    returned an error change nothing. [pingTCP] takes a round as
    successful when the connection was made. [pingICMP] takes every round
    in which [ReadFrom] returned a datagram, whatever it holds: an echo
    reply measured at 5 ms followed by a round in which only a router's
    destination-unreachable message arrives, 3 ms after the request,
    leaves [Latency] at 3 ms, although the second probe was not answered.
    The first revision's [ping], which looks at the type of the message,
    keeps the 5 ms on the same two rounds. *)
Theorem C6_unanswered_probe_overwrites_latency :
  (forall cfg host ios,
     let s := snd (final (Main.pingTCP cfg host ios) (fresh host)) in
     RTTs s = tcp_rtts ios /\ Latency s = default 0 (last (tcp_rtts ios))) /\
  (forall cfg pid host ios,
     let s := snd (final (Main.pingICMP cfg pid Listening ios) (fresh host)) in
     RTTs s = icmp_rtts ios /\ Latency s = default 0 (last (icmp_rtts ios))) /\
  (matching_reply 4242 0 (echo_reply 4242 0) = true /\
   matching_reply 4242 1 unreachable = false /\
   Latency (snd (final (Main.pingICMP cfg_icmp 4242 Listening (take 1 reply_then_unreachable))
                       (fresh "example.org"))) = ms 5 /\
   (let s := snd (final (Main.pingICMP cfg_icmp 4242 Listening reply_then_unreachable)
                        (fresh "example.org")) in
    Latency s = ms 3 /\ RTTs s = [ms 5; ms 3] /\ Timestamps s = [ms 1000; ms 2000]) /\
   (let s := snd (final (Part001.ping 4242 Listening part001_reply_then_unreachable)
                        (fresh "example.org")) in
    Latency s = ms 5 /\ RTTs s = [ms 5] /\ Timestamps s = [ms 1000])).
Proof.
  split; [|split].
  - intros cfg host ios s.
    assert (Hh : RTTs s = tcp_rtts ios) by (subst s; by rewrite pingTCP_history).
    split; [done|]. rewrite <- Hh. apply latency_is_newest_sample.
  - intros cfg pid host ios s.
    assert (Hh : RTTs s = icmp_rtts ios)
      by (subst s; unfold Main.pingICMP; by rewrite pingICMP_loop_history).
    split; [done|]. rewrite <- Hh. apply latency_is_newest_sample.
  - vm_compute. by repeat split.
Qed.


(** ** The pause between rounds *)

(** Every round of [pingTCP], every round of [pingICMP] whose write
    succeeded, and every round of the later revision's [pingICMP], ends
    with [time.Sleep(cfg.Interval)]. *)
Lemma rounds_that_sleep (cfg : Config) (pid sq : Z) (host : string) (st : State) :
  (forall io, last (effects (Main.pingTCP_body cfg host io) st) = Some (ESleep (Interval cfg))) /\
  (forall io, io <> WriteErr ->
     last (effects (Main.pingICMP_body cfg pid sq io) st) = Some (ESleep (Interval cfg))) /\
  (forall io, last (effects (Part002.pingICMP_body cfg pid sq io) st) = Some (ESleep (Interval cfg))).
Proof.
  destruct st as [l s]. repeat split.
  - by intros [|rtt now].
  - by intros [| |pkt rtt now] H.
  - by intros [| |pkt rtt now].
Qed.

(** C8, on the code: a round of [main.go]'s [pingICMP] whose [WriteTo]
    fails asks for no sleep at all, and the next round's write follows the
    failed one directly. *)
Theorem C8_failed_write_skips_the_sleep :
  (forall cfg pid sq st,
     effects (Main.pingICMP_body cfg pid sq WriteErr) st =
       [ESetDeadline (Timeout cfg); EWriteTo (Z.land pid 0xffff) sq]) /\
  effects (Main.pingICMP cfg_icmp 4242 Listening [WriteErr; WriteErr]) (fresh "example.org") =
    [ESetDeadline (ms 2000); EWriteTo 4242 0; ESetDeadline (ms 2000); EWriteTo 4242 1].
Proof.
  split; [|by vm_compute]. by intros cfg pid sq [l s].
Qed.

(** ** The graph display's tick over all records *)

Lemma foldl_alter_trim (ps : list nat) (recs : list HostStats) (p : nat) :
  foldl (fun r q => alter trim q r) recs ps !! p =
  if decide (p ∈ ps) then trim <$> recs !! p else recs !! p.
Proof.
  revert recs. induction ps as [|q ps IH]; intros recs.
  - destruct (decide (p ∈ [])) as [Hin|_]; [by apply elem_of_nil in Hin|done].
  - cbn [foldl]. rewrite IH, list_lookup_alter. clear IH.
    destruct (decide (p ∈ q :: ps)) as [Hin|Hnin];
      destruct (decide (p ∈ ps)) as [Hps|Hps];
      destruct (decide (q = p)) as [Hqp|Hqp]; try subst q; try done.
    + destruct (recs !! p); simpl; [|done]. by rewrite trim_idemp.
    + apply elem_of_cons in Hin as [Heq|Hin]; congruence.
    + exfalso. apply Hnin, elem_of_cons; by left.
    + exfalso. apply Hnin, elem_of_cons; by right.
    + exfalso. apply Hnin, elem_of_cons; by left.
Qed.

Lemma displayGraph_tick_records (w : World) (p : nat) :
  records (fst (Main.displayGraph_tick w)) !! p =
  if decide (p ∈ allStats w) then trim <$> records w !! p else records w !! p.
Proof. apply foldl_alter_trim. Qed.

Lemma displayGraph_tick_deref (w : World) (p : nat) :
  p ∈ allStats w -> deref (fst (Main.displayGraph_tick w)) p = trim (deref w p).
Proof.
  intros Hin. unfold deref. rewrite !list_lookup_total_alt, displayGraph_tick_records.
  rewrite decide_True by done. by destruct (records w !! p).
Qed.

(** ** History *)

Lemma timestamps_final (p : list Stmt) (st : State) :
  Timestamps (snd (final p st)) = Timestamps (snd st) ++ stamps p.
Proof.
  revert st. induction p as [|c p IH]; intros st.
  - by rewrite final_nil, app_nil_r.
  - rewrite final_cons, IH. destruct st as [l s].
    destruct c; simpl; try done. by rewrite <- app_assoc.
Qed.

Lemma stamps_app (p q : list Stmt) : stamps (p ++ q) = stamps p ++ stamps q.
Proof. apply flat_map_app. Qed.

Lemma stamps_pingTCP (cfg : Config) (host : string) (ios : list DialIO) :
  stamps (Main.pingTCP cfg host ios) = tcp_stamps ios.
Proof.
  induction ios as [|io ios IH]; [done|].
  change (Main.pingTCP cfg host (io :: ios))
    with (Main.pingTCP_body cfg host io ++ Main.pingTCP cfg host ios).
  rewrite stamps_app, IH. by destruct io.
Qed.

Lemma stamps_pingICMP_loop (cfg : Config) (pid sq : Z) (ios : list IcmpIO) :
  stamps (Main.pingICMP_loop cfg pid sq ios) = icmp_stamps ios.
Proof.
  revert sq. induction ios as [|io ios IH]; intros sq; [done|].
  change (Main.pingICMP_loop cfg pid sq (io :: ios))
    with (Main.pingICMP_body cfg pid sq io ++ Main.pingICMP_loop cfg pid (incr sq) ios).
  rewrite stamps_app, IH. by destruct io.
Qed.

(** Whatever [trim] keeps, the tick keeps in every record. *)
Lemma displayGraph_tick_frame {B : Type} (f : HostStats -> B) (w : World) :
  (forall s, f (trim s) = f s) ->
  map f (records (fst (Main.displayGraph_tick w))) = map f (records w).
Proof.
  intros Hf. apply list_eq; intros i.
  rewrite !list_lookup_fmap, displayGraph_tick_records.
  destruct (decide (i ∈ allStats w)); [|done].
  destruct (records w !! i); simpl; [|done]. by rewrite Hf.
Qed.

(** C2, against the claim as stated: sixty consecutive successful probes
    leave sixty samples in [RTTs] (and sixty in [Timestamps]): the probe
    loop appends and never evicts, so the history exceeds fifty entries
    until the graph display's next tick. *)
Lemma C2_sixty_successes_hold_sixty_samples :
  let s := snd (final (Main.pingTCP cfg_tcp "example.org:80" sixty) (fresh "example.org:80")) in
  length (RTTs s) = 60%nat /\ length (Timestamps s) = 60%nat /\
  ~ (length (RTTs s) <= 50)%nat.
Proof. vm_compute. repeat split; lia. Qed.

(** C2, as amended: the bound holds right after a tick of the graph
    display. The tick leaves in [RTTs] at most fifty entries, which are the
    newest ones in their order (the oldest are the ones dropped), in the
    record it is run on and in every record of the slice; a successful
    round appends its sample at the end and drops nothing; sixty successes
    followed by a tick leave samples 11 to 60 in order. *)
Theorem C2_history_is_last_fifty_after_graph_tick :
  (forall st,
     let old := RTTs (snd st) in
     let new := RTTs (snd (fst (exec_stmt GraphTick st))) in
     (length new <= 50)%nat /\ new = drop (length old - 50) old /\
     old = take (length old - 50) old ++ new) /\
  (forall w, Forall (fun p =>
     RTTs (deref (fst (Main.displayGraph_tick w)) p) =
       drop (length (RTTs (deref w p)) - 50) (RTTs (deref w p)) /\
     (length (RTTs (deref (fst (Main.displayGraph_tick w)) p)) <= 50)%nat) (allStats w)) /\
  (forall cfg host pid sq pkt rtt now st,
     RTTs (snd (final (Main.pingTCP_body cfg host (DialOk rtt now)) st)) = RTTs (snd st) ++ [rtt] /\
     RTTs (snd (final (Main.pingICMP_body cfg pid sq (ReadOk pkt rtt now)) st)) = RTTs (snd st) ++ [rtt]) /\
  RTTs (snd (final (Main.pingTCP cfg_tcp "example.org:80" sixty ++ [GraphTick]) (fresh "example.org:80")))
    = map (fun k => ms (Z.of_nat k)) (seq 11 50).
Proof.
  assert (Hdrop : forall (s : list Duration), last50 s = drop (length s - 50) s).
  { intros s. unfold last50. destruct (50 <? length s)%nat eqn:E; [done|].
    apply Nat.ltb_ge in E. by replace (length s - 50)%nat with 0%nat by lia. }
  split; [|split; [|split]].
  - intros [l s]; simpl. split; [apply length_last50|].
    split; [apply Hdrop|apply last50_suffix].
  - intros w. apply Forall_forall. intros p Hp.
    rewrite displayGraph_tick_deref by done. simpl. split; [apply Hdrop|apply length_last50].
  - intros. by rewrite tcp_success_round, icmp_success_round.
  - by vm_compute.
Qed.

(** C10: [Timestamps] only ever grows at its end. Any statements of the
    record's goroutines (probe rounds of either loop, ticks of the graph
    display) leave the old entries in place and add one stamp per
    successful round; the graph tick, the table display and the logger
    change no record's [Timestamps]. So a loop that ran from a fresh record
    holds exactly the stamps of its successful rounds, of which there can
    be any number; and after sixty successes and a tick [Timestamps] has
    sixty entries, [RTTs] fifty. *)
Theorem C10_timestamps_append_only :
  (forall p st, Timestamps (snd (final p st)) = Timestamps (snd st) ++ stamps p) /\
  (forall sort_Slice w,
     map Timestamps (records (fst (Main.displayGraph_tick w))) = map Timestamps (records w) /\
     records (fst (Main.displayLoop_iter sort_Slice w)) = records w /\
     fst (Main.saveLog w) = w) /\
  (forall cfg host pid ios_tcp ios_icmp,
     Timestamps (snd (final (Main.pingTCP cfg host ios_tcp) (fresh host))) = tcp_stamps ios_tcp /\
     Timestamps (snd (final (Main.pingICMP cfg pid Listening ios_icmp) (fresh host))) = icmp_stamps ios_icmp) /\
  (forall n : nat, exists ios,
     length (Timestamps (snd (final (Main.pingTCP cfg_tcp "example.org:80" ios) (fresh "example.org:80")))) = n) /\
  (let s := snd (final (Main.pingTCP cfg_tcp "example.org:80" sixty ++ [GraphTick]) (fresh "example.org:80")) in
   length (Timestamps s) = 60%nat /\ length (RTTs s) = 50%nat).
Proof.
  split; [exact timestamps_final|]. split; [|split; [|split]].
  - intros sort_Slice w. split; [|done]. by apply displayGraph_tick_frame.
  - intros. unfold Main.pingICMP.
    by rewrite !timestamps_final, stamps_pingTCP, stamps_pingICMP_loop.
  - intros n. exists (replicate n (DialOk 0 0)).
    rewrite timestamps_final, stamps_pingTCP. simpl.
    induction n as [|n IH]; simpl; [done|]. by rewrite IH.
  - by vm_compute.
Qed.

(** ** The specification's scenarios, run on the code *)

(** Five successes of 10, 12, 11, 9 and 13 ms: five sent, five received,
    no loss, [Latency] 13 ms, all five samples in order. *)
Example scenario_five_successes :
  final (Main.pingTCP cfg_tcp "example.org:80"
           [DialOk (ms 10) (ms 1000); DialOk (ms 12) (ms 2000); DialOk (ms 11) (ms 3000);
            DialOk (ms 9) (ms 4000); DialOk (ms 13) (ms 5000)])
        (fresh "example.org:80")
  = (mkLocals 5 5,
     mkHostStats "example.org:80" (ms 13) (0 # 5)%Q
       [ms 1000; ms 2000; ms 3000; ms 4000; ms 5000]
       [ms 10; ms 12; ms 11; ms 9; ms 13]).
Proof. by vm_compute. Qed.

(** Hosts at 30 ms and 10 ms: the table display, sorting as [sort.Slice]
    does on a short slice, draws the 10 ms host first. *)
Example scenario_two_hosts_table :
  map (fun r : Row => (fst (fst r), row_latency r))
      (snd (Main.displayLoop_iter (@insertionSort nat) world_30_10))
  = [("b:80", ms 10); ("a:80", ms 30)].
Proof. by vm_compute. Qed.

(** ** Counters and the loss quotient *)

Lemma wrap_small (z : Z) : - 2 ^ 63 <= z < 2 ^ 63 -> wrap z = z.
Proof. intros H. unfold wrap. rewrite Z.mod_small; lia. Qed.

(** Past the largest [int] a counter would turn negative: the reason the
    invariant below is stated for fewer than 2^63 rounds. *)
Example incr_wraps : incr (2 ^ 63 - 1) = - 2 ^ 63.
Proof. reflexivity. Qed.

Lemma loss_percent_range (s r : Z) :
  0 <= r <= s -> 1 <= s < 2 ^ 63 ->
  (0 <= loss_percent s r)%Q /\ (loss_percent s r <= 100)%Q.
Proof.
  intros Hr Hs. unfold loss_percent, int_sub, float64_of_int.
  rewrite wrap_small by lia.
  destruct s as [|ps|ps]; try lia.
  unfold Qle, Qdiv, Qmult, Qinv, inject_Z; simpl.
  rewrite ?Pos.mul_1_r, ?Z.mul_1_r. split; [lia|].
  rewrite Pos2Z.inj_mul. simpl. lia.
Qed.

Lemma safe_pingTCP (cfg : Config) (host : string) (ios : list DialIO) (s r : Z) :
  0 <= r <= s -> s + Z.of_nat (length ios) < 2 ^ 63 ->
  safe (Main.pingTCP cfg host ios) s r.
Proof.
  revert s r. induction ios as [|io ios IH]; intros s r Hr Hs; [done|].
  rewrite length_cons, Nat2Z.inj_succ in Hs.
  destruct io as [|rtt now]; simpl; (split; [lia|]).
  - apply IH; lia.
  - repeat (split; [lia|]). apply IH; lia.
Qed.

Lemma safe_pingICMP_loop (cfg : Config) (pid sq : Z) (ios : list IcmpIO) (s r : Z) :
  0 <= r <= s -> s + Z.of_nat (length ios) < 2 ^ 63 ->
  safe (Main.pingICMP_loop cfg pid sq ios) s r.
Proof.
  revert sq s r. induction ios as [|io ios IH]; intros sq s r Hr Hs; [done|].
  rewrite length_cons, Nat2Z.inj_succ in Hs.
  destruct io as [| |pkt rtt now]; simpl; (split; [lia|]).
  - apply IH; lia.
  - apply IH; lia.
  - repeat (split; [lia|]). apply IH; lia.
Qed.

Lemma safe_prober (cfg : Config) (pid : Z) (host : string) (env : Main.ProbeEnv) :
  Z.of_nat (length (Main.icmp_io env)) < 2 ^ 63 ->
  Z.of_nat (length (Main.tcp_io env)) < 2 ^ 63 ->
  safe (Main.prober cfg pid host env) 0 0.
Proof.
  intros Hi Ht. unfold Main.prober, Main.pingICMP.
  destruct (UseICMP cfg); [destruct (Main.setup env); try done|].
  - apply safe_pingICMP_loop; lia.
  - apply safe_pingTCP; lia.
Qed.

Lemma good_fresh (host : string) : good (fresh host).
Proof. unfold good; simpl. repeat split; try lia; by vm_compute. Qed.

(** One safe statement from a good state: the state stays good, the
    counters do not go down, and the rest of the line is safe from the new
    counters. *)
Lemma safe_step (c : Stmt) (p : list Stmt) (st : State) :
  good st -> safe (c :: p) (sent (fst st)) (received (fst st)) ->
  let st' := fst (exec_stmt c st) in
  good st' /\ counters_grow st st' /\ safe p (sent (fst st')) (received (fst st')).
Proof.
  destruct st as [l s]. unfold good, counters_grow. simpl fst; simpl snd.
  intros (Hr & Hs & Hp0 & Hp1) Hsafe.
  destruct c; simpl in *; unfold incr, int_add.
  - destruct Hsafe as [Hb Hsafe]. rewrite wrap_small by lia. repeat split; try done; lia.
  - destruct Hsafe as [Hb Hsafe]. rewrite wrap_small by lia. repeat split; try done; lia.
  - destruct Hsafe as [Hb Hsafe].
    destruct (loss_percent_range (sent l) (received l)) as [H0 H1]; [lia|lia|].
    repeat split; try done; lia.
  - destruct Hsafe as [Hb Hsafe].
    destruct (loss_percent_range (sent l) (received l)) as [H0 H1]; [lia|lia|].
    repeat split; try done; lia.
  - repeat split; try done; lia.
  - repeat split; try done; lia.
Qed.

Lemma tick_step (st : State) :
  good st ->
  let st' := fst (exec_stmt GraphTick st) in
  good st' /\ counters_grow st st' /\ fst st' = fst st.
Proof.
  destruct st as [l s]. unfold good, counters_grow. simpl.
  intros (Hr & Hs & Hp0 & Hp1). repeat split; try done; lia.
Qed.

Lemma interleaved_points_good (sch : list Turn) (p : list Stmt) (st : State) :
  good st -> safe p (sent (fst st)) (received (fst st)) ->
  Forall good (points (interleave sch p) st) /\
  chain counters_grow st (points (interleave sch p) st).
Proof.
  revert p st. induction sch as [|t sch IH]; intros p st Hg Hsafe; [by split|].
  destruct t.
  - destruct p as [|c p]; [by apply IH|].
    cbn [interleave points].
    destruct (safe_step c p st Hg Hsafe) as (Hg' & Hmono & Hsafe').
    destruct (IH p _ Hg' Hsafe') as [HF HC].
    split; [by constructor|by split].
  - cbn [interleave points].
    destruct (tick_step st Hg) as (Hg' & Hmono & Hl).
    destruct (IH p (fst (exec_stmt GraphTick st)) Hg') as [HF HC]; [by rewrite Hl|].
    split; [by constructor|by split].
Qed.

(** C7: while a host's goroutine runs either loop of [main.go] from its
    fresh record, with the graph display ticking at any moments, after
    every statement [0 <= received <= sent], neither counter is below its
    value at the previous point, and the stored [PacketLoss] lies between 0
    and 100. The counters are machine integers: the statement is for runs
    of fewer than 2^63 rounds. *)
Theorem C7_counters_ordered_monotone_loss_in_range
    (cfg : Config) (pid : Z) (host : string) (env : Main.ProbeEnv) (sch : list Turn) :
  Z.of_nat (length (Main.icmp_io env)) < 2 ^ 63 ->
  Z.of_nat (length (Main.tcp_io env)) < 2 ^ 63 ->
  let pts := points (interleave sch (Main.prober cfg pid host env)) (fresh host) in
  Forall (fun st =>
            0 <= received (fst st) <= sent (fst st) /\
            (0 <= PacketLoss (snd st))%Q /\ (PacketLoss (snd st) <= 100)%Q)
         (fresh host :: pts) /\
  chain counters_grow (fresh host) pts.
Proof.
  intros Hi Ht pts.
  destruct (interleaved_points_good sch (Main.prober cfg pid host env) (fresh host))
    as [HF HC]; [apply good_fresh|by apply safe_prober|].
  split; [|done].
  eapply Forall_impl; [constructor; [apply good_fresh|exact HF]|].
  intros st (Hr & _ & Hp0 & Hp1). auto.
Qed.

(** ** The table display *)

Lemma sink_perm {A : Type} (less : A -> A -> bool) (x : A) (l : list A) :
  x :: l ≡ₚ sink less x l.
Proof.
  induction l as [|y l IH]; simpl; [done|].
  destruct (less x y); [|done]. by rewrite Permutation_swap, IH.
Qed.

Lemma foldl_sink_perm {A : Type} (less : A -> A -> bool) (l acc : list A) :
  rev l ++ acc ≡ₚ foldl (fun acc x => sink less x acc) acc l.
Proof.
  revert acc. induction l as [|x l IH]; intros acc; simpl; [done|].
  by rewrite <- IH, <- sink_perm, <- app_assoc.
Qed.

Lemma insertionSort_perm {A : Type} (less : A -> A -> bool) (l : list A) :
  l ≡ₚ insertionSort less l.
Proof.
  unfold insertionSort. rewrite <- Permutation_rev, <- foldl_sink_perm, app_nil_r.
  apply Permutation_rev.
Qed.

Lemma sink_sorted {A : Type} (key : A -> Z) (x : A) (l : list A) :
  StronglySorted (fun a b => key b <= key a) l ->
  StronglySorted (fun a b => key b <= key a) (sink (fun a b => key a <? key b) x l).
Proof.
  induction 1 as [|y l Hs IH Hall]; simpl; [repeat constructor|].
  destruct (key x <? key y) eqn:E.
  - apply Z.ltb_lt in E. constructor; [done|].
    rewrite <- sink_perm. constructor; [lia|done].
  - apply Z.ltb_ge in E. constructor; [by constructor|].
    constructor; [done|]. eapply Forall_impl; [exact Hall|]. simpl. lia.
Qed.

Lemma StronglySorted_rev_flip {A : Type} (R : A -> A -> Prop) (l : list A) :
  StronglySorted (fun a b => R b a) l -> StronglySorted R (rev l).
Proof.
  induction 1 as [|x l Hs IH Hall]; simpl; [constructor|].
  apply StronglySorted_app_2; [|done|repeat constructor].
  intros a b Ha Hb. apply list_elem_of_singleton in Hb as ->.
  apply list_elem_of_In, in_rev, list_elem_of_In in Ha.
  rewrite Forall_forall in Hall. by apply Hall.
Qed.

Lemma insertionSort_sorted {A : Type} (key : A -> Z) (l : list A) :
  StronglySorted (fun a b => key a <= key b) (insertionSort (fun a b => key a <? key b) l).
Proof.
  unfold insertionSort. apply StronglySorted_rev_flip.
  assert (H : forall acc, StronglySorted (fun a b => key b <= key a) acc ->
            StronglySorted (fun a b => key b <= key a)
              (foldl (fun acc x => sink (fun a b => key a <? key b) x acc) acc l)).
  { induction l as [|x l IH]; intros acc Hacc; simpl; [done|]. by apply IH, sink_sorted. }
  apply H. constructor.
Qed.

Lemma StronglySorted_map {A B : Type} (R : B -> B -> Prop) (f : A -> B) (l : list A) :
  StronglySorted (fun a b => R (f a) (f b)) l -> StronglySorted R (map f l).
Proof.
  induction 1 as [|x l Hs IH Hall]; simpl; constructor; [done|].
  by apply Forall_map.
Qed.

Lemma exec_stmt_Host (c : Stmt) (l : Locals) (s : HostStats) :
  Host (snd (fst (exec_stmt c (l, s)))) = Host s.
Proof. by destruct c. Qed.

(** A statement that keeps a field of the record it runs on keeps it in
    the world. *)
Lemma world_write_field {A : Type} (f : HostStats -> A) (e : nat * Stmt * Locals)
    (w : World) (p : nat) :
  (forall s, f (snd (fst (exec_stmt (snd (fst e)) (snd e, s)))) = f s) ->
  f (deref (world_write e w) p) = f (deref w p) /\
  allStats (world_write e w) = allStats w.
Proof.
  destruct e as [[i c] l]. cbn [fst snd]. intros Hf. split; [|done].
  unfold deref, world_write. cbn [records].
  rewrite !list_lookup_total_alt, list_lookup_alter.
  destruct (decide (i = p)) as [->|Hne]; [|done].
  destruct (records w !! p); cbn [fmap option_fmap option_map default]; [|done].
  apply Hf.
Qed.

Lemma world_writes_field {A : Type} (f : HostStats -> A) (es : list (nat * Stmt * Locals))
    (w : World) (p : nat) :
  Forall (fun e => forall s, f (snd (fst (exec_stmt (snd (fst e)) (snd e, s)))) = f s) es ->
  f (deref (world_writes es w) p) = f (deref w p) /\
  allStats (world_writes es w) = allStats w.
Proof.
  unfold world_writes. revert w. induction es as [|e es IH]; intros w Hes; [done|].
  apply Forall_cons in Hes as [He Hes]. cbn [foldl].
  destruct (IH (world_write e w) Hes) as [-> ->].
  by apply world_write_field.
Qed.

(** The rows drawn show a field as the world had it before the round, if
    nothing that ran in between changes the field. *)
Lemma draw_rows_field {A : Type} (f : HostStats -> A) (g : Row -> A) (ptrs : list nat)
    (during : nat -> list (nat * Stmt * Locals)) (k : nat) (w0 w : World) :
  (forall s, g (row_of s) = f s) ->
  (forall j, Forall (fun e => forall s, f (snd (fst (exec_stmt (snd (fst e)) (snd e, s)))) = f s)
                    (during j)) ->
  (forall p, f (deref w p) = f (deref w0 p)) ->
  allStats (fst (draw_rows ptrs during k w)) = allStats w /\
  map g (snd (draw_rows ptrs during k w)) = map (fun p => f (deref w0 p)) ptrs.
Proof.
  intros Hg Hd. revert k w.
  induction ptrs as [|p ptrs IH]; intros k w Hw; [done|].
  cbn [draw_rows].
  assert (Hw1 : forall q, f (deref (world_writes (during k) w) q) = f (deref w0 q)).
  { intros q. destruct (world_writes_field f (during k) w q (Hd k)) as [-> _]. apply Hw. }
  destruct (world_writes_field f (during k) w p (Hd k)) as [_ Ha].
  specialize (IH (S k) (world_writes (during k) w) Hw1).
  destruct (draw_rows ptrs during (S k) (world_writes (during k) w)) as [w2 rows].
  cbn [fst snd map] in *. destruct IH as [IHa IHr]. split; [by rewrite IHa|].
  by rewrite IHr, Hg, Hw1.
Qed.

Lemma draw_rows_hosts (ptrs : list nat) (during : nat -> list (nat * Stmt * Locals))
    (k : nat) (w : World) :
  allStats (fst (draw_rows ptrs during k w)) = allStats w /\
  map (fun r : Row => fst (fst r)) (snd (draw_rows ptrs during k w)) =
    map (fun p => Host (deref w p)) ptrs.
Proof.
  apply (draw_rows_field Host (fun r : Row => fst (fst r))); [done| |done].
  intros j. apply Forall_forall. intros [[i c] l] _ s. apply exec_stmt_Host.
Qed.

Lemma draw_rows_latencies (ptrs : list nat) (during : nat -> list (nat * Stmt * Locals))
    (k : nat) (w : World) :
  (forall j, Forall (fun e => sets_Latency (snd (fst e)) = false) (during j)) ->
  map row_latency (snd (draw_rows ptrs during k w)) =
    map (fun p => Latency (deref w p)) ptrs.
Proof.
  intros Hq. apply (draw_rows_field Latency row_latency); [done| |done].
  intros j. eapply Forall_impl; [apply Hq|]. intros [[i c] l]. cbn [fst snd].
  intros Hc s. by destruct c.
Qed.

Lemma draw_rows_alone (ptrs : list nat) (k : nat) (w : World) :
  draw_rows ptrs (fun _ => []) k w = (w, map (fun p => row_of (deref w p)) ptrs).
Proof.
  revert k. induction ptrs as [|p ptrs IH]; intros k; [done|].
  cbn [draw_rows world_writes foldl]. unfold world_writes in IH. cbn [foldl] in IH.
  by rewrite IH.
Qed.

Lemma StronglySorted_of_map {A B : Type} (R : B -> B -> Prop) (f : A -> B) (l : list A) :
  StronglySorted R (map f l) -> StronglySorted (fun a b => R (f a) (f b)) l.
Proof.
  induction l as [|x l IH]; intros H; [constructor|].
  cbn [map] in H. apply StronglySorted_inv in H as [Hs Hall].
  constructor; [by apply IH|].
  apply Forall_forall. intros y Hy. rewrite Forall_forall in Hall. apply Hall.
  by apply (list_elem_of_fmap_2 f).
Qed.

Section TableDisplay.

(** [sort.Slice], as far as Go documents it: the result is the slice
    reordered so that no element is less than one before it; the order of
    equal elements is not specified. *)
Variable sort_Slice : (nat -> nat -> bool) -> list nat -> list nat.

Hypothesis sort_Slice_perm : forall less l, l ≡ₚ sort_Slice less l.

Hypothesis sort_Slice_sorted : forall (key : nat -> Z) l,
  StronglySorted (fun a b => key a <= key b) (sort_Slice (fun a b => key a <? key b) l).

(** C4, as amended: one round of the table display reorders the slice of
    pointers with [sort.Slice] and draws one row per record in the new
    order, whatever the probe loops and the graph display do meanwhile:
    the hosts of the rows are the hosts of the records, permuted. When no
    probe succeeds between the start of the sort and the last row, every
    row shows the latency its record had when the sort started, and no row
    shows a smaller latency than a row above it. A probe that succeeds
    after the sort and before its row is drawn puts the rows out of order:
    with [a] at 30 ms and [b] at 10 ms sorted, and [b] then answering in
    40 ms, the rows read [b] 40 ms, [a] 30 ms. Nothing is said of rows
    with equal latencies. Running alone, the round is the sort followed by
    the rows of the records as they are. The graph display draws the
    records in the order of the slice as it finds it. *)
Theorem C4_table_rows_sorted_by_latency
    (w : World) (during : nat -> list (nat * Stmt * Locals)) :
  let w' := fst (displayLoop_round sort_Slice during w) in
  let rows := snd (displayLoop_round sort_Slice during w) in
  (allStats w ≡ₚ allStats w' /\
   map (fun r : Row => fst (fst r)) rows = map (fun p => Host (deref w p)) (allStats w') /\
   map (fun p => Host (deref w p)) (allStats w) ≡ₚ map (fun r : Row => fst (fst r)) rows) /\
  ((forall k, Forall (fun e => sets_Latency (snd (fst e)) = false) (during k)) ->
   map row_latency rows = map (fun p => Latency (deref w p)) (allStats w') /\
   StronglySorted (fun r1 r2 => row_latency r1 <= row_latency r2) rows) /\
  map (fun r : Row => (fst (fst r), row_latency r))
      (snd (displayLoop_round sort_Slice probe_after_sort world_30_10))
    = [("b:80", ms 40); ("a:80", ms 30)] /\
  displayLoop_round sort_Slice (fun _ => []) w = Main.displayLoop_iter sort_Slice w /\
  snd (Main.displayGraph_tick w) =
    (map (fun p => plot_row (trim (deref w p))) (allStats w),
     imap (fun i p => (S i, Host (deref w p))) (allStats w)).
Proof using sort_Slice_perm sort_Slice_sorted.
  cbn zeta. unfold displayLoop_round.
  set (sorted := sort_Slice (less_Latency (records w)) (allStats w)).
  set (ws := {| records := records w; allStats := sorted |}).
  assert (Hperm : allStats w ≡ₚ sorted) by apply sort_Slice_perm.
  destruct (draw_rows_hosts sorted during 0 ws) as [Ha Hh].
  split; [|split; [|split; [|split]]].
  - rewrite Ha. cbn [allStats ws]. split; [done|]. split; [done|].
    rewrite Hh. by apply Permutation_map.
  - intros Hq. rewrite Ha. cbn [allStats ws].
    assert (Hl := draw_rows_latencies sorted during 0 ws Hq).
    split; [done|].
    apply StronglySorted_of_map. fold row_latency.
    change (StronglySorted Z.le (map row_latency (snd (draw_rows sorted during 0 ws)))).
    rewrite Hl. apply StronglySorted_map.
    apply (sort_Slice_sorted (fun p => Latency (records w !!! p))).
  - set (key := fun p : nat => Latency (records world_30_10 !!! p)).
    assert (Hs : sort_Slice (less_Latency (records world_30_10)) (allStats world_30_10)
                 = [1%nat; 0%nat]).
    { pose proof (sort_Slice_perm (less_Latency (records world_30_10))
                    (allStats world_30_10)) as Hp.
      pose proof (sort_Slice_sorted key (allStats world_30_10)) as Hsd.
      change (fun a b => key a <? key b) with (less_Latency (records world_30_10)) in Hsd.
      change (allStats world_30_10) with [0%nat; 1%nat] in Hp at 1.
      apply Permutation_length_2_inv in Hp as [Hp|Hp]; [|done].
      rewrite Hp in Hsd. apply StronglySorted_inv in Hsd as [_ Hsd].
      apply Forall_inv in Hsd. by vm_compute in Hsd. }
    rewrite Hs. by vm_compute.
  - by rewrite draw_rows_alone.
  - assert (Hd : forall p, p ∈ allStats w ->
              foldl (fun recs q => alter trim q recs) (records w) (allStats w) !!! p
              = trim (deref w p)).
    { intros p Hp. by rewrite <- displayGraph_tick_deref. }
    cbn [Main.displayGraph_tick snd]. f_equal.
    + apply map_ext_in. intros p Hp. rewrite Hd; [done|by apply list_elem_of_In].
    + apply imap_ext. intros i p Hp. rewrite Hd; [done|].
      by eapply list_elem_of_lookup_2.
Qed.

End TableDisplay.

(** ** Reading through windows while others write *)

Module HeapFacts.
Import Heap.

Lemma view_empty (m : memory) (s : slice) : len s = 0%nat -> view m s = [].
Proof. intros H. unfold view. by rewrite H. Qed.

Lemma wf_kept (m : memory) (s : slice) : wf m s -> kept m s.
Proof. intros [Hl [Hc|[Ha _]]]; [left; lia|by right]. Qed.

Lemma wf_length_view (m : memory) (s : slice) : wf m s -> length (view m s) = len s.
Proof.
  intros [Hl [Hc|[Ha Ho]]]; unfold view; rewrite length_take, length_drop; lia.
Qed.

Section Runtime.

Variable growslice : nat -> nat -> nat.

(** [append] adds the element at the end of what the window shows. *)
Lemma view_append (m : memory) (s : slice) (x : Duration) :
  wf m s ->
  view (fst (append growslice m s x)) (snd (append growslice m s x)) = view m s ++ [x].
Proof.
  intros Hwf. pose proof (wf_length_view m s Hwf) as Hlen.
  destruct Hwf as [Hl Hc]. unfold append.
  destruct (len s <? cap s)%nat eqn:E.
  - apply Nat.ltb_lt in E. destruct Hc as [Hc|[Ha Ho]]; [lia|].
    unfold view; simpl. rewrite list_lookup_total_alter_eq by done.
    rewrite drop_insert_ge by lia.
    replace (off s + len s - off s)%nat with (len s) by lia.
    erewrite take_S_r; [by rewrite take_insert_ge by lia|].
    apply list_lookup_insert_eq. rewrite length_drop. lia.
  - unfold view at 1; simpl. rewrite lookup_total_app_r by lia.
    rewrite Nat.sub_diag. simpl. rewrite drop_0.
    rewrite <- Hlen at 1.
    change (S (length (view m s))) with (1 + length (view m s))%nat.
    rewrite Nat.add_comm, take_app_add. by simpl.
Qed.

(** [append] keeps the window within an array. *)
Lemma wf_append (m : memory) (s : slice) (x : Duration) :
  wf m s -> wf (fst (append growslice m s x)) (snd (append growslice m s x)).
Proof.
  intros Hwf. pose proof (wf_length_view m s Hwf) as Hlen.
  destruct Hwf as [Hl Hc]. unfold append, wf.
  destruct (len s <? cap s)%nat eqn:E; simpl.
  - apply Nat.ltb_lt in E. destruct Hc as [Hc|[Ha Ho]]; [lia|].
    split; [lia|right]. rewrite length_alter, list_lookup_total_alter_eq by done.
    rewrite length_insert. lia.
  - split; [lia|right]. rewrite length_app, lookup_total_app_r by lia.
    rewrite Nat.sub_diag. simpl. rewrite length_app, Hlen. simpl.
    rewrite length_replicate. lia.
Qed.

(** A window stays within its array whatever is appended elsewhere. *)
Lemma wf_append_other (m : memory) (s c : slice) (x : Duration) :
  wf m s -> wf (fst (append growslice m c x)) s.
Proof.
  intros [Hl Hc]. split; [done|]. destruct Hc as [Hc|[Ha Ho]]; [by left|right].
  unfold append. destruct (len c <? cap c)%nat; simpl.
  - rewrite length_alter. split; [done|].
    destruct (decide (arr c = arr s)) as [Heq|Hne].
    + rewrite Heq, list_lookup_total_alter_eq by done. by rewrite length_insert.
    + by rewrite list_lookup_total_alter_ne.
  - rewrite length_app, lookup_total_app_l by done. simpl. lia.
Qed.

(** What a saved window shows is not changed by an [append] through a
    window that is clear of it; the grown window is clear of it too. *)
Lemma append_frame (m : memory) (sv c : slice) (x : Duration) :
  kept m sv -> clear_of sv c ->
  view (fst (append growslice m c x)) sv = view m sv /\
  kept (fst (append growslice m c x)) sv /\
  clear_of sv (snd (append growslice m c x)).
Proof.
  intros Hk Hc. destruct (decide (len sv = 0%nat)) as [H0|H0].
  { rewrite !view_empty by done. repeat split; by left. }
  destruct Hk as [Hk|Hk]; [done|]. destruct Hc as [Hc|Hc]; [done|].
  unfold append. destruct (len c <? cap c)%nat eqn:E; simpl.
  - apply Nat.ltb_lt in E. repeat split.
    + unfold view. destruct Hc as [Hc|[Hc|Hc]]; [lia| |].
      * by rewrite list_lookup_total_alter_ne.
      * destruct (decide (arr c = arr sv)) as [Heq|Hne];
          [|by rewrite list_lookup_total_alter_ne].
        rewrite Heq, list_lookup_total_alter_eq by done.
        rewrite drop_insert_ge by lia. by rewrite take_insert_ge by lia.
    + right. by rewrite length_alter.
    + unfold clear_of; simpl. destruct Hc as [Hc|[Hc|Hc]]; [lia|tauto|].
      right; right; right. lia.
  - repeat split.
    + unfold view. by rewrite lookup_total_app_l.
    + right. rewrite length_app. simpl. lia.
    + unfold clear_of; simpl. right; right; left. lia.
Qed.

End Runtime.

(** Trimming moves the front of a window, never its end. *)
Lemma clear_of_trim (sv : slice) (r : HostStatsRef) :
  clear_of sv (rRTTs r) -> clear_of sv (rRTTs (trim_ref r)).
Proof.
  unfold trim_ref; simpl. destruct (50 <? len (rRTTs r))%nat eqn:E; [|done].
  apply Nat.ltb_lt in E. unfold clear_of, reslice_from; simpl.
  intros [H|[H|[H|H]]]; [by left|right; left; lia|by right; right; left|].
  right; right; right. lia.
Qed.

Lemma wf_trim (m : memory) (r : HostStatsRef) :
  wf m (rRTTs r) -> wf m (rRTTs (trim_ref r)).
Proof.
  unfold trim_ref; simpl. destruct (50 <? len (rRTTs r))%nat eqn:E; [|done].
  apply Nat.ltb_lt in E. unfold wf, reslice_from; simpl.
  intros [Hl [Hc|[Ha Ho]]]; [lia|]. split; [lia|right]. split; [done|lia].
Qed.

(** Trimming shows the last fifty of what the window showed. *)
Lemma view_trim (m : memory) (r : HostStatsRef) :
  wf m (rRTTs r) ->
  view m (rRTTs (trim_ref r)) = last50 (view m (rRTTs r)).
Proof.
  intros Hwf. unfold trim_ref, last50; simpl. rewrite (wf_length_view _ _ Hwf).
  destruct (50 <? len (rRTTs r))%nat eqn:E; [|done].
  apply Nat.ltb_lt in E. unfold view, reslice_from; simpl.
  set (k := (len (rRTTs r) - 50)%nat).
  replace (len (rRTTs r)) with (k + (len (rRTTs r) - k))%nat at 2 by lia.
  by rewrite <- take_drop_commute, drop_drop.
Qed.

Lemma apart_clear_of (m : memory) (sv c : slice) :
  wf m sv -> apart sv c -> clear_of sv c.
Proof.
  intros [Hl _] [H|[H|H]]; [left; lia|by right; left|right; right; left; congruence].
Qed.

Lemma apart_sym (c1 c2 : slice) : apart c1 c2 -> apart c2 c1.
Proof. intros [H|[H|H]]; [by right; left|by left|right; right; congruence]. Qed.

Lemma owned_main_alloc (cfg : Config) : owned (main_alloc cfg).
Proof.
  split.
  - intros i r Hr. apply list_lookup_fmap_Some in Hr as (h & -> & _).
    split; [done|by left].
  - intros i j ri rj Hi _ _. apply list_lookup_fmap_Some in Hi as (h & -> & _). by left.
Qed.

Section Writes.

Variable growslice : nat -> nat -> nat.

(** A statement on references does to the record read through them what
    the statement does to the record. *)
Lemma exec_stmt_ref_abs (c : Stmt) (l : Locals) (m : memory) (r : HostStatsRef) :
  wf m (rRTTs r) ->
  let res := exec_stmt_ref growslice c l (m, r) in
  fst (exec_stmt c (l, abs m r)) = (fst res, abs (fst (snd res)) (snd (snd res))) /\
  wf (fst (snd res)) (rRTTs (snd (snd res))).
Proof.
  intros Hwf. destruct c; cbn [exec_stmt_ref exec_stmt update_ref fst snd]; try done.
  - pose proof (view_append growslice m (rRTTs r) rtt Hwf) as Hv.
    pose proof (wf_append growslice m (rRTTs r) rtt Hwf) as Hw.
    destruct (append growslice m (rRTTs r) rtt) as [m' s']; simpl in *.
    split; [|done]. unfold update, abs; simpl. by rewrite Hv.
  - split; [|by apply wf_trim]. unfold trim, abs. rewrite view_trim by done.
    by destruct r.
Qed.

(** What a statement does to the window of the record it runs on and to
    the memory, as seen from a saved window. *)
Lemma exec_stmt_ref_frame (c : Stmt) (l : Locals) (m : memory) (r : HostStatsRef) (sv : slice) :
  kept m sv -> clear_of sv (rRTTs r) ->
  let res := snd (exec_stmt_ref growslice c l (m, r)) in
  view (fst res) sv = view m sv /\ kept (fst res) sv /\ clear_of sv (rRTTs (snd res)).
Proof.
  intros Hk Hc. destruct c; cbn [exec_stmt_ref update_ref fst snd]; try done.
  - pose proof (append_frame growslice m sv (rRTTs r) rtt Hk Hc) as Hf.
    by destruct (append growslice m (rRTTs r) rtt) as [m' s'].
  - repeat split; [done|]. by apply clear_of_trim.
Qed.

(** Windows of other records stay within their arrays. *)
Lemma exec_stmt_ref_wf_other (c : Stmt) (l : Locals) (m : memory) (r : HostStatsRef) (s : slice) :
  wf m s -> wf (fst (snd (exec_stmt_ref growslice c l (m, r)))) s.
Proof.
  intros Hwf. destruct c; simpl; try done.
  pose proof (wf_append_other growslice m s (rRTTs r) rtt Hwf) as Hw.
  by destruct (append growslice m (rRTTs r) rtt) as [m' s'].
Qed.

(** The window a statement leaves is apart from whatever the old one was
    apart from. *)
Lemma exec_stmt_ref_apart (c : Stmt) (l : Locals) (m : memory) (r : HostStatsRef) (s : slice) :
  wf m s -> apart (rRTTs r) s ->
  apart (rRTTs (snd (snd (exec_stmt_ref growslice c l (m, r))))) s.
Proof.
  intros Hwf Ha. destruct c; simpl; try done.
  - unfold append. destruct (len (rRTTs r) <? cap (rRTTs r))%nat; simpl; [done|].
    destruct Hwf as [_ [H0|[Hlt _]]]; [by right; left|].
    right; right; simpl. lia.
  - unfold trim_ref; simpl. destruct (50 <? len (rRTTs r))%nat; [|done].
    destruct Ha as [H|[H|H]]; [left; simpl; lia|by right; left|by right; right].
Qed.

Lemma exec_write_owned (e : Write) (w : RefWorld) :
  owned w -> owned (exec_write growslice e w).
Proof.
  destruct e as [[i c] l]. intros [Hwf Hap]. unfold exec_write.
  destruct (refs w !! i) as [r|] eqn:Hi; [|by split].
  pose proof (exec_stmt_ref_abs c l (mem w) r (Hwf i r Hi)) as [_ Hwf'].
  pose proof (exec_stmt_ref_wf_other c l (mem w) r) as Hother.
  pose proof (exec_stmt_ref_apart c l (mem w) r) as Hapart.
  destruct (exec_stmt_ref growslice c l (mem w, r)) as [l' [m' r']]; simpl in *.
  assert (Hlt : (i < length (refs w))%nat) by by eapply lookup_lt_Some.
  split; simpl.
  - intros j rj Hj. destruct (decide (i = j)) as [<-|Hne].
    + rewrite list_lookup_insert_eq in Hj by done. by simplify_eq.
    + rewrite list_lookup_insert_ne in Hj by done. by eapply Hother, Hwf.
  - intros j k rj rk Hj Hk Hjk.
    destruct (decide (i = j)) as [<-|Hij]; destruct (decide (i = k)) as [<-|Hik]; try done.
    + rewrite list_lookup_insert_eq in Hj by done.
      rewrite list_lookup_insert_ne in Hk by done. simplify_eq.
      apply Hapart; [by eapply Hwf|by eapply Hap].
    + rewrite list_lookup_insert_ne in Hj by done.
      rewrite list_lookup_insert_eq in Hk by done. simplify_eq.
      apply apart_sym, Hapart; [by eapply Hwf|]. apply apart_sym. by eapply Hap.
    + rewrite list_lookup_insert_ne in Hj, Hk by done. by eapply Hap.
Qed.

Lemma exec_writes_owned (es : list Write) (w : RefWorld) :
  owned w -> owned (exec_writes growslice es w).
Proof.
  revert w. induction es as [|e es IH]; intros w Hw; [done|].
  apply IH. by apply exec_write_owned.
Qed.

(** A saved window no record's window can write into shows the same
    samples after any write. *)
Lemma exec_write_frame (e : Write) (w : RefWorld) (sv : slice) :
  kept (mem w) sv ->
  (forall i r, refs w !! i = Some r -> clear_of sv (rRTTs r)) ->
  let w' := exec_write growslice e w in
  view (mem w') sv = view (mem w) sv /\ kept (mem w') sv /\
  (forall i r, refs w' !! i = Some r -> clear_of sv (rRTTs r)).
Proof.
  destruct e as [[i c] l]. intros Hk Hc. unfold exec_write.
  destruct (refs w !! i) as [r|] eqn:Hi; [|done].
  pose proof (exec_stmt_ref_frame c l (mem w) r sv Hk (Hc i r Hi)) as (Hv & Hk' & Hc').
  destruct (exec_stmt_ref growslice c l (mem w, r)) as [l' [m' r']]; simpl in *.
  repeat split; [done|done|].
  intros j rj Hj. destruct (decide (i = j)) as [<-|Hne].
  - rewrite list_lookup_insert_eq in Hj by by eapply lookup_lt_Some. by simplify_eq.
  - rewrite list_lookup_insert_ne in Hj by done. by eapply Hc.
Qed.

Lemma exec_writes_frame (es : list Write) (w : RefWorld) (sv : slice) :
  kept (mem w) sv ->
  (forall i r, refs w !! i = Some r -> clear_of sv (rRTTs r)) ->
  view (mem (exec_writes growslice es w)) sv = view (mem w) sv.
Proof.
  revert w. induction es as [|e es IH]; intros w Hk Hc; [done|].
  destruct (exec_write_frame e w sv Hk Hc) as (Hv & Hk' & Hc').
  change (exec_writes growslice (e :: es) w)
    with (exec_writes growslice es (exec_write growslice e w)).
  by rewrite IH.
Qed.

End Writes.

(** At the moment a record's window is saved, no record's window can
    write into it. *)
Lemma owned_saved_clear (w : RefWorld) (i : nat) (r : HostStatsRef) :
  owned w -> refs w !! i = Some r ->
  kept (mem w) (rRTTs r) /\
  (forall j rj, refs w !! j = Some rj -> clear_of (rRTTs r) (rRTTs rj)).
Proof.
  intros [Hwf Hap] Hi. split; [by eapply wf_kept, Hwf|].
  intros j rj Hj. destruct (decide (i = j)) as [<-|Hne].
  - simplify_eq. right; right; right. lia.
  - eapply apart_clear_of; [by eapply Hwf|by eapply Hap].
Qed.

(** Every window in the logger's map is the window of a record, or the
    empty window of no record. *)
Lemma saveLog_entries (w : RefWorld) (h : string) (sv : slice) :
  snd (saveLog w) !! h = Some sv ->
  len sv = 0%nat \/ exists i r, refs w !! i = Some r /\ sv = rRTTs r.
Proof.
  unfold saveLog; simpl.
  assert (H : forall ps (data : gmap string slice),
            (forall h sv, data !! h = Some sv ->
               len sv = 0%nat \/ exists i r, refs w !! i = Some r /\ sv = rRTTs r) ->
            forall h sv,
              foldl (fun data p => <[rHost (refs w !!! p) := rRTTs (refs w !!! p)]> data)
                data ps !! h = Some sv ->
              len sv = 0%nat \/ exists i r, refs w !! i = Some r /\ sv = rRTTs r).
  { induction ps as [|p ps IH]; intros data Hd; [done|]. simpl. apply IH.
    intros h' sv' Hl. destruct (decide (rHost (refs w !!! p) = h')) as [<-|Hne].
    - rewrite lookup_insert_eq in Hl. simplify_eq.
      rewrite list_lookup_total_alt. destruct (refs w !! p) as [r|] eqn:Hp; simpl.
      + right. by exists p, r.
      + by left.
    - rewrite lookup_insert_ne in Hl by done. by eapply Hd. }
  apply H. intros h' sv' Hl. by rewrite lookup_empty in Hl.
Qed.

End HeapFacts.

(** ** The logger's map while others write *)

Section LoggerFrame.
Import Heap HeapFacts.

Variable growslice : nat -> nat -> nat.

(** Whatever was written before [saveLog] filled its map and whatever is
    written afterwards, the encoder reads through the map what was there
    when the map was filled. *)
Lemma saveLog_frame (cfg : Config) (before after : list Write) :
  let w := exec_writes growslice before (Heap.main_alloc cfg) in
  encode (mem (exec_writes growslice after w)) (snd (Heap.saveLog w)) =
  encode (mem w) (snd (Heap.saveLog w)).
Proof.
  intros w. unfold encode. apply map_fmap_ext. intros h sv Hsv.
  destruct (saveLog_entries w h sv Hsv) as [H0|(i & r & Hi & ->)].
  - by rewrite !view_empty.
  - assert (Hown : owned w) by apply exec_writes_owned, owned_main_alloc.
    destruct (owned_saved_clear w i r Hown Hi) as [Hk Hc].
    by apply exec_writes_frame.
Qed.

(** A write on references is the statement on the record of the world
    read through them; no other record changes. *)
Lemma exec_write_abs (i : nat) (c : Stmt) (l : Locals) (w : RefWorld) :
  owned w ->
  abs_world (exec_write growslice (i, c, l) w) =
  {| records := alter (fun s => snd (fst (exec_stmt c (l, s)))) i (records (abs_world w));
     allStats := allStats (abs_world w) |}.
Proof.
  intros [Hwf Hap]. unfold exec_write, abs_world.
  destruct (refs w !! i) as [r|] eqn:Hi.
  - pose proof (exec_stmt_ref_abs growslice c l (mem w) r (Hwf i r Hi)) as [Habs _].
    pose proof (exec_stmt_ref_frame growslice c l (mem w) r) as Hframe.
    destruct (exec_stmt_ref growslice c l (mem w, r)) as [l' [m' r']].
    cbn [fst snd mem refs slice_of_refs records allStats] in *.
    f_equal. apply list_eq; intros j.
    rewrite list_lookup_alter, !list_lookup_fmap.
    destruct (decide (i = j)) as [Heq|Hne]; [subst j|].
    + rewrite list_lookup_insert_eq by by eapply lookup_lt_Some.
      rewrite Hi. cbn [fmap option_fmap option_map]. by rewrite Habs.
    + rewrite list_lookup_insert_ne by done.
      destruct (refs w !! j) as [rj|] eqn:Hj; simpl; [|done].
      destruct (Hframe (rRTTs rj)) as [Hv _].
      * by eapply wf_kept, Hwf.
      * eapply apart_clear_of; [by eapply Hwf|by eapply Hap].
      * unfold abs. by rewrite Hv.
  - cbn [records allStats]. f_equal. apply list_eq; intros j.
    rewrite list_lookup_alter. destruct (decide (i = j)) as [Heq|Hne]; [subst j|done].
    by rewrite list_lookup_fmap, Hi.
Qed.

End LoggerFrame.

(** What the encoder reads through the logger's map of windows is the map
    of the value-level [saveLog]. *)
Lemma saveLog_abs (w : Heap.RefWorld) :
  Heap.encode (Heap.mem w) (snd (Heap.saveLog w)) = snd (Main.saveLog (Heap.abs_world w)).
Proof.
  unfold Heap.encode, Heap.saveLog, Main.saveLog; simpl.
  assert (Hd : forall p, deref (Heap.abs_world w) p = Heap.abs (Heap.mem w) (Heap.refs w !!! p)).
  { intros p. unfold deref, Heap.abs_world; simpl.
    rewrite !list_lookup_total_alt, list_lookup_fmap.
    by destruct (Heap.refs w !! p). }
  assert (H : forall ps (data : gmap string Heap.slice),
            Heap.view (Heap.mem w) <$>
              foldl (fun data p => <[Heap.rHost (Heap.refs w !!! p) :=
                                     Heap.rRTTs (Heap.refs w !!! p)]> data) data ps =
            foldl (fun data p => <[Host (deref (Heap.abs_world w) p) :=
                                   RTTs (deref (Heap.abs_world w) p)]> data)
              (Heap.view (Heap.mem w) <$> data) ps).
  { induction ps as [|p ps IH]; intros data; [done|].
    cbn [foldl]. by rewrite IH, fmap_insert, Hd. }
  by rewrite H, fmap_empty.
Qed.

(** ** Readers *)

(** C5, against the claim as stated: the graph display is a reader that
    writes. A tick on a record that holds sixty samples leaves it with
    fifty: the record after the tick is not the record before. And the
    logger's map holds, for the host, the very window of the record (same
    array, same offset), not a copy of the samples. *)
Lemma C5_graph_tick_rewrites_the_record :
  let w' := fst (Main.displayGraph_tick world_sixty) in
  (records w' <> records world_sixty /\
   length (RTTs (deref world_sixty 0)) = 60%nat /\
   length (RTTs (deref w' 0)) = 50%nat) /\
  snd (Heap.saveLog refworld_sixty) !! "example.org:80" =
    Some (Heap.rRTTs (Heap.refs refworld_sixty !!! 0%nat)).
Proof.
  split; [split; [|by vm_compute]|by vm_compute].
  intros H. apply (f_equal (fun rs => length (RTTs (rs !!! 0%nat)))) in H.
  vm_compute in H. discriminate.
Qed.

(** C5, as amended: the logger and the table display change no record;
    a tick of the graph display changes nothing but [RTTs] (which it
    trims) and draws from its own copy of the samples; the logger's map
    holds the records' windows themselves, yet what is read through them
    is what the records held when the map was filled, whatever the probe
    loops append and the display trims before the encoder runs. *)
Theorem C5_readers_and_later_writes :
  (forall sort_Slice w,
     fst (Main.saveLog w) = w /\
     records (fst (Main.displayLoop_iter sort_Slice w)) = records w) /\
  (forall w,
     let w' := fst (Main.displayGraph_tick w) in
     map Host (records w') = map Host (records w) /\
     map Latency (records w') = map Latency (records w) /\
     map PacketLoss (records w') = map PacketLoss (records w) /\
     map Timestamps (records w') = map Timestamps (records w) /\
     map RTTs (records w') =
       map (fun '(i, s) => if decide (i ∈ allStats w) then last50 (RTTs s) else RTTs s)
           (imap pair (records w)) /\
     allStats w' = allStats w /\
     fst (snd (Main.displayGraph_tick w)) =
       map (fun p => map (fun d => float64_of_int (Milliseconds d)) (last50 (RTTs (deref w p))))
           (allStats w)) /\
  (forall growslice cfg before after,
     let w := Heap.exec_writes growslice before (Heap.main_alloc cfg) in
     let data := snd (Heap.saveLog w) in
     let later := Heap.exec_writes growslice after w in
     fst (Heap.saveLog w) = w /\
     Heap.encode (Heap.mem later) data = Heap.encode (Heap.mem w) data /\
     Heap.encode (Heap.mem w) data = snd (Main.saveLog (Heap.abs_world w))).
Proof.
  split; [done|]. split.
  - intros w. cbn zeta.
    repeat (split; [by apply displayGraph_tick_frame|]).
    split; [|split; [done|]].
    + apply list_eq; intros i.
      rewrite !list_lookup_fmap, displayGraph_tick_records, list_lookup_imap.
      destruct (records w !! i) as [s|]; simpl; [|by destruct (decide _)].
      by destruct (decide (i ∈ allStats w)).
    + simpl. apply map_ext_in. intros p Hp.
      assert (Hd : deref (fst (Main.displayGraph_tick w)) p = trim (deref w p))
        by by apply displayGraph_tick_deref, list_elem_of_In.
      unfold deref in Hd; simpl in Hd. by rewrite Hd.
  - intros growslice cfg before after w data later. split; [done|].
    split; [apply saveLog_frame|apply saveLog_abs].
Qed.

(** ** The order of the displays *)

(** C4, against the claim as stated. The graph display, the one [main]
    starts, draws the hosts in the order of the slice: with [a] at 30 ms
    and [b] at 10 ms the legend is [1. a], [2. b], the latencies in drawn
    order are not ascending. The table display sorts the slice it is
    given in place: once [b] was faster than [a] it stays above [a] when
    both show 15 ms, although [a] was registered first. *)
Lemma C4_drawn_order_neither_sorted_nor_registration :
  (snd (snd (Main.displayGraph_tick world_30_10)) = [(1%nat, "a:80"); (2%nat, "b:80")] /\
   map (fun p => Latency (deref world_30_10 p)) (allStats world_30_10) = [ms 30; ms 10] /\
   ~ StronglySorted Z.le [ms 30; ms 10]) /\
  (Hosts cfg_two = ["a:80"; "b:80"] /\
   map (fun r : Row => (fst (fst r), row_latency r)) (snd table_two_rounds)
     = [("b:80", ms 15); ("a:80", ms 15)]).
Proof.
  split; [|by vm_compute].
  split; [by vm_compute|]. split; [by vm_compute|].
  intros H. apply StronglySorted_inv in H as [_ H].
  apply Forall_inv in H. vm_compute in H. by apply H.
Qed.

(** The table display's theorem, at [insertionSort] and the world where
    [a] shows 30 ms and [b] 10 ms, with the graph display ticking and a
    probe failing before every row. *)
Lemma C4_table_rows_sorted_by_latency_witness :
  (forall (less : nat -> nat -> bool) (l : list nat), l ≡ₚ insertionSort less l) /\
  (forall (key : nat -> Z) (l : list nat),
     StronglySorted (fun a b => key a <= key b) (insertionSort (fun a b => key a <? key b) l)) /\
  (forall k, Forall (fun e => sets_Latency (snd (fst e)) = false) (ticks_and_failures k)) /\
  let w := world_30_10 in
  let w' := fst (displayLoop_round (@insertionSort nat) ticks_and_failures w) in
  let rows := snd (displayLoop_round (@insertionSort nat) ticks_and_failures w) in
  (allStats w ≡ₚ allStats w' /\
   map (fun r : Row => fst (fst r)) rows = map (fun p => Host (deref w p)) (allStats w') /\
   map (fun p => Host (deref w p)) (allStats w) ≡ₚ map (fun r : Row => fst (fst r)) rows) /\
  ((forall k, Forall (fun e => sets_Latency (snd (fst e)) = false) (ticks_and_failures k)) ->
   map row_latency rows = map (fun p => Latency (deref w p)) (allStats w') /\
   StronglySorted (fun r1 r2 => row_latency r1 <= row_latency r2) rows) /\
  map (fun r : Row => (fst (fst r), row_latency r))
      (snd (displayLoop_round (@insertionSort nat) probe_after_sort world_30_10))
    = [("b:80", ms 40); ("a:80", ms 30)] /\
  displayLoop_round (@insertionSort nat) (fun _ => []) w
    = Main.displayLoop_iter (@insertionSort nat) w /\
  snd (Main.displayGraph_tick w) =
    (map (fun p => plot_row (trim (deref w p))) (allStats w),
     imap (fun i p => (S i, Host (deref w p))) (allStats w)).
Proof.
  split; [exact (@insertionSort_perm nat)|].
  split; [exact (@insertionSort_sorted nat)|].
  split; [intros k; repeat constructor|].
  exact (C4_table_rows_sorted_by_latency (@insertionSort nat)
           (@insertionSort_perm nat) (@insertionSort_sorted nat) world_30_10
           ticks_and_failures).
Defined.

(** ** A run of ten rounds with the display ticking *)

(** The invariant's theorem on ten alternating rounds of the TCP loop. *)
Lemma C7_counters_ordered_monotone_loss_in_range_witness :
  Z.of_nat (length (Main.icmp_io env_alternating)) < 2 ^ 63 /\
  Z.of_nat (length (Main.tcp_io env_alternating)) < 2 ^ 63 /\
  let pts := points (interleave sch_two_one
                       (Main.prober cfg_tcp 4242 "example.org:80" env_alternating))
                    (fresh "example.org:80") in
  Forall (fun st =>
            0 <= received (fst st) <= sent (fst st) /\
            (0 <= PacketLoss (snd st))%Q /\ (PacketLoss (snd st) <= 100)%Q)
         (fresh "example.org:80" :: pts) /\
  chain counters_grow (fresh "example.org:80") pts.
Proof.
  split; [reflexivity|]. split; [reflexivity|].
  apply (C7_counters_ordered_monotone_loss_in_range
           cfg_tcp 4242 "example.org:80" env_alternating sch_two_one); reflexivity.
Defined.

(** * More of the program *)

(** ** The logger's map *)

Lemma saveLog_snoc (recs : list HostStats) (ps : list nat) (p : nat) (data : gmap string (list Z)) :
  foldl (fun data q => <[Host (recs !!! q) := RTTs (recs !!! q)]> data) data (ps ++ [p]) =
  <[Host (recs !!! p) := RTTs (recs !!! p)]>
    (foldl (fun data q => <[Host (recs !!! q) := RTTs (recs !!! q)]> data) data ps).
Proof. by rewrite foldl_snoc. Qed.

(** X1: [saveLog]'s map holds, for a host name, the [RTTs] of the last
    record of the slice that carries this name, and nothing for a name no
    record carries: of two records with the same name only the later one
    is logged. *)
Theorem saveLog_last_record_of_name (w : World) (h : string) :
  snd (Main.saveLog w) !! h =
  RTTs <$> last (filter (fun s => Host s = h) (map (deref w) (allStats w))).
Proof.
  unfold Main.saveLog, deref; simpl.
  induction (allStats w) as [|p ps IH] using rev_ind; [done|].
  rewrite saveLog_snoc, map_app, filter_app, last_app. simpl map.
  rewrite list.filter_singleton by exact [].
  destruct (decide (Host (records w !!! p) = h)) as [<-|Hne]; simpl.
  - by rewrite lookup_insert_eq.
  - by rewrite lookup_insert_ne.
Qed.

Lemma filter_host_short (l : list HostStats) (h : string) :
  NoDup (map Host l) -> (length (filter (fun s => Host s = h) l) <= 1)%nat.
Proof.
  induction l as [|s l IH]; intros Hnd; [simpl; lia|].
  apply NoDup_cons in Hnd as [Hs Hnd]. rewrite filter_cons.
  destruct (decide (Host s = h)) as [Heq|Hne]; [|by apply IH].
  assert (Hnil : filter (fun s' => Host s' = h) l = []).
  { destruct (filter (fun s' => Host s' = h) l) as [|s' k] eqn:E; [done|].
    exfalso. apply Hs.
    assert (Hin : s' ∈ filter (fun s' => Host s' = h) l) by (rewrite E; apply elem_of_cons; by left).
    apply list_elem_of_filter in Hin as [Hh Hin].
    apply list_elem_of_fmap. exists s'. split; [congruence|done]. }
  rewrite Hnil. simpl. lia.
Qed.

Lemma Permutation_short_eq {A : Type} (l k : list A) :
  l ≡ₚ k -> (length l <= 1)%nat -> l = k.
Proof.
  intros Hp Hl. destruct l as [|x [|y l]]; simpl in Hl; [| |lia].
  - symmetry. by apply Permutation_nil.
  - symmetry. by apply Permutation_length_1_inv.
Qed.

(** X2: when the records of the slice carry distinct host names, the
    logger's map does not depend on the order of the slice: the table
    display, which sorts the slice it shares with the logger, does not
    change what is logged. *)
Theorem saveLog_after_table_sort
    (sort_Slice : (nat -> nat -> bool) -> list nat -> list nat) (w : World) :
  (forall less l, l ≡ₚ sort_Slice less l) ->
  NoDup (map (fun p => Host (deref w p)) (allStats w)) ->
  snd (Main.saveLog (fst (Main.displayLoop_iter sort_Slice w))) = snd (Main.saveLog w).
Proof.
  intros Hperm Hnd. apply map_eq; intros h.
  rewrite !saveLog_last_record_of_name. f_equal. f_equal.
  change (deref (fst (Main.displayLoop_iter sort_Slice w))) with (deref w).
  change (allStats (fst (Main.displayLoop_iter sort_Slice w)))
    with (sort_Slice (less_Latency (records w)) (allStats w)).
  symmetry. apply Permutation_short_eq.
  - apply filter_Permutation, Permutation_map, Hperm.
  - apply filter_host_short. by rewrite map_map.
Qed.

Lemma saveLog_after_table_sort_witness :
  (forall (less : nat -> nat -> bool) (l : list nat), l ≡ₚ insertionSort less l) /\
  NoDup (map (fun p => Host (deref world_30_10 p)) (allStats world_30_10)) /\
  snd (Main.saveLog (fst (Main.displayLoop_iter (@insertionSort nat) world_30_10)))
    = snd (Main.saveLog world_30_10).
Proof.
  assert (Hnd : NoDup (map (fun p => Host (deref world_30_10 p)) (allStats world_30_10))).
  { apply (bool_decide_unpack _). by vm_compute. }
  split; [exact (@insertionSort_perm nat)|]. split; [exact Hnd|].
  exact (saveLog_after_table_sort (@insertionSort nat) world_30_10
           (@insertionSort_perm nat) Hnd).
Defined.

Lemma dom_saveLog (w : World) :
  dom (snd (Main.saveLog w)) =
  (list_to_set (map (fun p => Host (deref w p)) (allStats w)) : gset string).
Proof.
  unfold Main.saveLog; simpl.
  induction (allStats w) as [|p ps IH] using rev_ind; [simpl; by rewrite dom_empty_L|].
  rewrite foldl_snoc, dom_insert_L, IH, map_app, list_to_set_app_L. simpl.
  by rewrite union_empty_r_L, union_comm_L.
Qed.

Lemma map_lookup_total_seq {A B : Type} `{!Inhabited A} (f : A -> B) (l : list A) :
  map (fun p => f (l !!! p)) (seq 0 (length l)) = map f l.
Proof.
  apply list_eq; intros i. rewrite !list_lookup_fmap.
  destruct (decide (i < length l)%nat) as [Hlt|Hge].
  - rewrite lookup_seq_lt by done. simpl.
    destruct (lookup_lt_is_Some_2 l i Hlt) as [x Hx].
    by rewrite Hx, (list_lookup_total_correct l i x Hx).
  - rewrite lookup_seq_ge by lia. by rewrite lookup_ge_None_2 by lia.
Qed.

Lemma world_writes_hosts (cfg : Config) (es : list (nat * Stmt * Locals)) :
  map Host (records (world_writes es (Main.main_alloc cfg))) = Hosts cfg /\
  allStats (world_writes es (Main.main_alloc cfg)) = seq 0 (length (Hosts cfg)).
Proof.
  unfold world_writes.
  induction es as [|e es IH] using rev_ind.
  - simpl. split; [|done]. rewrite map_map. simpl. apply map_id.
  - rewrite foldl_snoc. destruct IH as [IHr IHa]. destruct e as [[i c] l].
    split; [|done]. rewrite <- IHr. apply list_eq; intros j.
    unfold world_write; cbn [records].
    rewrite !list_lookup_fmap, list_lookup_alter.
    destruct (decide (i = j)) as [->|Hne]; [|done].
    destruct (_ !! j); cbn [fmap option_fmap option_map]; [|done].
    by rewrite exec_stmt_Host.
Qed.

(** X3: the names in the logger's map are exactly the configured hosts,
    whatever the probe loops and the graph display did to the records; a
    host that was never reached (or never resolved) is logged with an
    empty list, and at startup every host is. *)
Theorem saveLog_names_are_the_hosts
    (cfg : Config) (es : list (nat * Stmt * Locals)) (h : string) :
  dom (snd (Main.saveLog (world_writes es (Main.main_alloc cfg))))
    = (list_to_set (Hosts cfg) : gset string) /\
  snd (Main.saveLog (Main.main_alloc cfg)) !! h
    = if decide (h ∈ Hosts cfg) then Some [] else None.
Proof.
  split.
  - rewrite dom_saveLog.
    destruct (world_writes_hosts cfg es) as [Hr Ha]. rewrite Ha, <- Hr, length_map.
    unfold deref. by rewrite (map_lookup_total_seq Host).
  - rewrite saveLog_last_record_of_name. unfold deref, Main.main_alloc; simpl.
    rewrite <- (length_map new_HostStats (Hosts cfg)).
    rewrite (map_lookup_total_seq (fun s => s)), map_id.
    induction (Hosts cfg) as [|h' hs IH]; [done|].
    simpl map. rewrite filter_cons. simpl.
    destruct (decide (h' = h)) as [->|Hne].
    + rewrite last_cons. rewrite decide_True by (apply elem_of_cons; by left).
      destruct (last _) as [s|] eqn:E; [|done]. simpl.
      apply last_Some in E as [k Hk].
      assert (Hin : s ∈ filter (fun s => Host s = h) (map new_HostStats hs))
        by (rewrite Hk; apply elem_of_app; right; apply elem_of_cons; by left).
      apply list_elem_of_filter in Hin as [_ Hin].
      apply list_elem_of_fmap in Hin as (x & -> & _). done.
    + rewrite IH. destruct (decide (h ∈ hs)) as [Hin|Hnin].
      * by rewrite decide_True by (apply elem_of_cons; by right).
      * rewrite decide_False; [done|]. rewrite elem_of_cons. by intros [Heq|Hin].
Qed.


(** ** The graph display, tick after tick *)

(** X5: a second tick of the graph display with no probe in between
    changes no record and renders the same plot and legend. *)
Theorem displayGraph_tick_twice (w : World) :
  Main.displayGraph_tick (fst (Main.displayGraph_tick w)) =
  (fst (Main.displayGraph_tick w), snd (Main.displayGraph_tick w)).
Proof.
  assert (Hrec : records (fst (Main.displayGraph_tick (fst (Main.displayGraph_tick w))))
                 = records (fst (Main.displayGraph_tick w))).
  { apply list_eq; intros i. rewrite !displayGraph_tick_records.
    change (allStats (fst (Main.displayGraph_tick w))) with (allStats w).
    destruct (decide (i ∈ allStats w)); [|done].
    destruct (records w !! i); simpl; [|done]. by rewrite trim_idemp. }
  unfold Main.displayGraph_tick at 1. cbn [fst snd].
  change (foldl (fun recs p => alter trim p recs)
            (records (fst (Main.displayGraph_tick w)))
            (allStats (fst (Main.displayGraph_tick w))))
    with (records (fst (Main.displayGraph_tick (fst (Main.displayGraph_tick w))))).
  rewrite Hrec. by destruct w.
Qed.

(** ** The history, over a record's life *)

Lemma rtts_app (p q : list Stmt) : rtts (p ++ q) = rtts p ++ rtts q.
Proof. apply flat_map_app. Qed.

Lemma history_step (c : Stmt) (st : State) (all : list Duration) :
  RTTs (snd st) `suffix_of` all ->
  (50 `min` length all <= length (RTTs (snd st)))%nat ->
  (length (RTTs (snd st)) <= length (Timestamps (snd st)))%nat ->
  let st' := fst (exec_stmt c st) in
  RTTs (snd st') `suffix_of` (all ++ rtts [c]) /\
  (50 `min` length (all ++ rtts [c]) <= length (RTTs (snd st')))%nat /\
  (length (RTTs (snd st')) <= length (Timestamps (snd st')))%nat.
Proof.
  destruct st as [l s]. cbn [fst snd]. intros Hs Hm Ht.
  destruct c; cbn [exec_stmt fst snd update loss_only trim RTTs Timestamps rtts flat_map app];
    rewrite ?app_nil_r; try done.
  - split; [by apply suffix_app|]. rewrite !length_app. cbn [length]. lia.
  - pose proof (length_last50 (RTTs s)) as H50.
    split; [|split].
    + etrans; [|exact Hs]. exists (take (length (RTTs s) - 50) (RTTs s)).
      apply last50_suffix.
    + unfold last50 in *. destruct (50 <? length (RTTs s))%nat eqn:E; [|done].
      rewrite length_drop. apply Nat.ltb_lt in E. lia.
    + pose proof (f_equal length (last50_suffix (RTTs s))) as Hlen.
      rewrite length_app in Hlen. lia.
Qed.

(** X6: whatever the goroutines of a host do, in any order (rounds of
    either loop, ticks of the graph display), [RTTs] is a suffix of the
    round-trip times of all successful rounds, in their order, holds at
    least the newest fifty of them (all of them while there are fewer),
    and is never longer than [Timestamps]. *)
Theorem history_is_newest_suffix (host : string) (p : list Stmt) :
  let s := snd (final p (fresh host)) in
  RTTs s `suffix_of` rtts p /\
  (50 `min` length (rtts p) <= length (RTTs s))%nat /\
  (length (RTTs s) <= length (Timestamps s))%nat.
Proof.
  assert (H : forall q st all,
            RTTs (snd st) `suffix_of` all ->
            (50 `min` length all <= length (RTTs (snd st)))%nat ->
            (length (RTTs (snd st)) <= length (Timestamps (snd st)))%nat ->
            RTTs (snd (final q st)) `suffix_of` (all ++ rtts q) /\
            (50 `min` length (all ++ rtts q) <= length (RTTs (snd (final q st))))%nat /\
            (length (RTTs (snd (final q st))) <= length (Timestamps (snd (final q st))))%nat).
  { induction q as [|c q IH]; intros st all Hs Hm Ht.
    - rewrite final_nil, app_nil_r. auto.
    - rewrite final_cons.
      destruct (history_step c st all Hs Hm Ht) as (Hs' & Hm' & Ht').
      change (c :: q) with ([c] ++ q). rewrite rtts_app, app_assoc. by apply IH. }
  apply (H p (fresh host) []); cbn [fresh snd new_HostStats RTTs Timestamps length];
    [done|lia|lia].
Qed.

(** ** The counters and the stored loss, over a run *)

Lemma pingTCP_cons (cfg : Config) (host : string) (io : DialIO) (ios : list DialIO) :
  Main.pingTCP cfg host (io :: ios) = Main.pingTCP_body cfg host io ++ Main.pingTCP cfg host ios.
Proof. reflexivity. Qed.

Lemma pingTCP_app (cfg : Config) (host : string) (ios ios' : list DialIO) :
  Main.pingTCP cfg host (ios ++ ios') = Main.pingTCP cfg host ios ++ Main.pingTCP cfg host ios'.
Proof. apply flat_map_app. Qed.

(** After a run of [pingTCP], [sent] has counted the rounds and [received]
    the successful ones. *)
Lemma pingTCP_counters (cfg : Config) (host : string) (ios : list DialIO) (st : State) :
  0 <= received (fst st) <= sent (fst st) ->
  sent (fst st) + Z.of_nat (length ios) < 2 ^ 63 ->
  fst (final (Main.pingTCP cfg host ios) st) =
    mkLocals (sent (fst st) + Z.of_nat (length ios))
             (received (fst st) + Z.of_nat (length (tcp_stamps ios))).
Proof.
  revert st. induction ios as [|io ios IH]; intros st Hr Hs.
  - rewrite final_nil. destruct st as [[s r] rec]; simpl. f_equal; lia.
  - rewrite length_cons, Nat2Z.inj_succ in Hs.
    rewrite pingTCP_cons, final_app. destruct io as [|rtt now].
    + destruct (failed_round_counts cfg 0 0 host st) as (K & _ & _).
      rewrite IH; rewrite K; cbn [fst sent received]; unfold incr, int_add;
        rewrite ?wrap_small by lia; [|lia|lia].
      change (tcp_stamps (DialErr :: ios)) with (tcp_stamps ios).
      cbn [length]. f_equal; lia.
    + rewrite tcp_success_round.
      rewrite IH; cbn [fst sent received]; unfold incr, int_add;
        rewrite ?wrap_small by lia; [|lia|lia].
      change (tcp_stamps (DialOk rtt now :: ios)) with (now :: tcp_stamps ios).
      cbn [length]. f_equal; lia.
Qed.

Lemma length_tcp_stamps (ios : list DialIO) :
  (length (tcp_stamps ios) <= length ios)%nat.
Proof.
  induction ios as [|[|rtt now] ios IH]; [done| |].
  - change (tcp_stamps (DialErr :: ios)) with (tcp_stamps ios). cbn [length]. lia.
  - change (tcp_stamps (DialOk rtt now :: ios)) with (now :: tcp_stamps ios).
    cbn [length]. lia.
Qed.

Lemma pingTCP_failures_local (cfg : Config) (host : string) (j : nat) :
  forallb local_stmt (Main.pingTCP cfg host (replicate j DialErr)) = true.
Proof. induction j as [|j IH]; [done|]. simpl. exact IH. Qed.

(** X7: what [pingTCP] leaves in the record is the state of the last
    successful round. If that round was the [(n+1)]-th and [m] of the [n]
    rounds before it succeeded, then, however many failed rounds follow,
    [PacketLoss] is [(n - m) / (n + 1) * 100] and [Latency] is that round's
    round-trip time, while [sent] and [received] count all the rounds. *)
Theorem pingTCP_loss_as_of_last_success
    (cfg : Config) (host : string) (pre : list DialIO) (rtt : Duration) (now : Time) (j : nat) :
  Z.of_nat (length pre) + 1 + Z.of_nat j < 2 ^ 63 ->
  let n := Z.of_nat (length pre) in
  let m := Z.of_nat (length (tcp_stamps pre)) in
  let st := final (Main.pingTCP cfg host (pre ++ DialOk rtt now :: replicate j DialErr))
                  (fresh host) in
  fst st = mkLocals (n + 1 + Z.of_nat j) (m + 1) /\
  PacketLoss (snd st) = (inject_Z (n - m) / inject_Z (n + 1) * 100)%Q /\
  Latency (snd st) = rtt.
Proof.
  intros Hlen n m st.
  assert (Hm : 0 <= m <= n).
  { subst m n. pose proof (length_tcp_stamps pre). lia. }
  assert (Hpre : fst (final (Main.pingTCP cfg host pre) (fresh host)) = mkLocals n m).
  { rewrite pingTCP_counters; cbn [fresh fst locals0 sent received]; [done|lia|lia]. }
  subst st. change (pre ++ DialOk rtt now :: replicate j DialErr)
    with (pre ++ [DialOk rtt now] ++ replicate j DialErr).
  rewrite !pingTCP_app, !final_app.
  change (Main.pingTCP cfg host [DialOk rtt now])
    with (Main.pingTCP_body cfg host (DialOk rtt now) ++ []).
  rewrite app_nil_r, tcp_success_round, Hpre. cbn [sent received].
  unfold incr, int_add. rewrite !wrap_small by lia.
  split; [|split].
  - rewrite pingTCP_counters; cbn [fst sent received]; [|lia|rewrite length_replicate; lia].
    assert (Hnone : tcp_stamps (replicate j DialErr) = []).
    { clear. induction j as [|j IH]; [done|]. exact IH. }
    rewrite length_replicate, Hnone. cbn [length]. f_equal; lia.
  - rewrite local_stmts_record by apply pingTCP_failures_local.
    cbn [snd update PacketLoss sent received]. unfold loss_percent, int_sub, float64_of_int.
    rewrite wrap_small by lia. do 3 f_equal. lia.
  - rewrite local_stmts_record by apply pingTCP_failures_local. done.
Qed.

Lemma pingTCP_loss_as_of_last_success_witness :
  Z.of_nat (length [DialOk (ms 8) (ms 1000); DialErr]) + 1 + Z.of_nat 3 < 2 ^ 63 /\
  let pre := [DialOk (ms 8) (ms 1000); DialErr] in
  let n := Z.of_nat (length pre) in
  let m := Z.of_nat (length (tcp_stamps pre)) in
  let st := final (Main.pingTCP cfg_tcp "example.org:80"
                     (pre ++ DialOk (ms 9) (ms 3000) :: replicate 3 DialErr))
                  (fresh "example.org:80") in
  fst st = mkLocals (n + 1 + Z.of_nat 3) (m + 1) /\
  PacketLoss (snd st) = (inject_Z (n - m) / inject_Z (n + 1) * 100)%Q /\
  Latency (snd st) = ms 9.
Proof.
  split; [reflexivity|].
  apply (pingTCP_loss_as_of_last_success cfg_tcp "example.org:80"
           [DialOk (ms 8) (ms 1000); DialErr] (ms 9) (ms 3000) 3).
  reflexivity.
Defined.








(** ** Echo requests *)

Lemma requests_app (t u : list Effect) : requests (t ++ u) = requests t ++ requests u.
Proof. apply flat_map_app. Qed.

Lemma sleeps_app (t u : list Effect) : sleeps (t ++ u) = sleeps t ++ sleeps u.
Proof. apply flat_map_app. Qed.

Lemma uint16_land (x : Z) : uint16 (Z.land x 0xffff) = Z.land x 0xffff.
Proof.
  unfold uint16. change 0xffff with (Z.ones 16). rewrite Z.land_ones by lia.
  by rewrite Z.mod_mod by lia.
Qed.

Lemma requests_pingICMP_body (cfg : Config) (pid sq : Z) (io : IcmpIO) (st : State) :
  requests (effects (Main.pingICMP_body cfg pid sq io) st) = [(Z.land pid 0xffff, uint16 sq)].
Proof.
  destruct st as [l s].
  assert (H : requests (effects (Main.pingICMP_body cfg pid sq io) (l, s))
              = [(uint16 (Z.land pid 0xffff), uint16 sq)]) by by destruct io.
  by rewrite H, uint16_land.
Qed.

Lemma pingICMP_loop_cons (cfg : Config) (pid sq : Z) (io : IcmpIO) (ios : list IcmpIO) :
  Main.pingICMP_loop cfg pid sq (io :: ios) =
  Main.pingICMP_body cfg pid sq io ++ Main.pingICMP_loop cfg pid (incr sq) ios.
Proof. reflexivity. Qed.

Lemma requests_pingICMP_loop (cfg : Config) (pid sq : Z) (ios : list IcmpIO) (st : State) :
  0 <= sq -> sq + Z.of_nat (length ios) < 2 ^ 63 ->
  requests (effects (Main.pingICMP_loop cfg pid sq ios) st) =
  map (fun k => (Z.land pid 0xffff, uint16 (sq + Z.of_nat k))) (seq 0 (length ios)).
Proof.
  revert sq st. induction ios as [|io ios IH]; intros sq st H0 Hlen; [done|].
  rewrite length_cons, Nat2Z.inj_succ in Hlen.
  rewrite pingICMP_loop_cons, effects_app, requests_app, requests_pingICMP_body.
  unfold incr, int_add. rewrite wrap_small by lia. rewrite IH by lia.
  cbn [length seq map app]. rewrite Z.add_0_r. f_equal.
  rewrite <- seq_shift, map_map. apply map_ext. intros k.
  do 2 f_equal. lia.
Qed.

(** X9: [pingICMP] sends one echo request per round, whether or not the
    round succeeds. The datagram of round [k] (counting from 0) carries
    the identifier [pid & 0xffff], which lies between 0 and 65535 for
    every process id, and the sequence number [k mod 65536]: the field is
    16 bits wide, the loop's [seq] keeps counting, so two rounds whose
    numbers differ by a multiple of 65536 send the same identifier and
    sequence number. (For runs of fewer than 2^63 rounds.) *)
Theorem pingICMP_requests_numbered_mod_65536
    (cfg : Config) (pid : Z) (ios : list IcmpIO) (st : State) :
  Z.of_nat (length ios) < 2 ^ 63 ->
  let reqs := requests (effects (Main.pingICMP cfg pid Listening ios) st) in
  reqs = map (fun k => (Z.land pid 0xffff, Z.of_nat k mod 65536)) (seq 0 (length ios)) /\
  0 <= Z.land pid 0xffff <= 65535 /\
  (forall j k, (j < length ios)%nat -> (k < length ios)%nat ->
     Z.of_nat j mod 65536 = Z.of_nat k mod 65536 -> reqs !! j = reqs !! k).
Proof.
  intros Hlen reqs.
  assert (Hreqs : reqs = map (fun k => (Z.land pid 0xffff, Z.of_nat k mod 65536))
                             (seq 0 (length ios))).
  { subst reqs. unfold Main.pingICMP. rewrite requests_pingICMP_loop by lia. done. }
  split; [done|]. split.
  - change 0xffff with (Z.ones 16). rewrite Z.land_ones by lia.
    change (2 ^ 16) with 65536.
    change (Z.ones 16) with 65535.
    pose proof (Z.mod_pos_bound pid 65536 ltac:(lia)). lia.
  - intros j k Hj Hk Hjk. rewrite Hreqs, !list_lookup_fmap.
    rewrite !lookup_seq_lt by lia. cbn [fmap option_fmap option_map Nat.add].
    by rewrite Hjk.
Qed.

Lemma pingICMP_requests_numbered_mod_65536_witness :
  Z.of_nat (length [ReadErr; WriteErr; ReadOk unreachable (ms 3) (ms 1000)]) < 2 ^ 63 /\
  let reqs := requests (effects (Main.pingICMP cfg_icmp (-1) Listening
                                   [ReadErr; WriteErr; ReadOk unreachable (ms 3) (ms 1000)])
                                (fresh "example.org")) in
  reqs = map (fun k => (Z.land (-1) 0xffff, Z.of_nat k mod 65536))
             (seq 0 (length [ReadErr; WriteErr; ReadOk unreachable (ms 3) (ms 1000)])) /\
  0 <= Z.land (-1) 0xffff <= 65535 /\
  (forall j k,
     (j < length [ReadErr; WriteErr; ReadOk unreachable (ms 3) (ms 1000)])%nat ->
     (k < length [ReadErr; WriteErr; ReadOk unreachable (ms 3) (ms 1000)])%nat ->
     Z.of_nat j mod 65536 = Z.of_nat k mod 65536 -> reqs !! j = reqs !! k).
Proof.
  split; [reflexivity|].
  apply (pingICMP_requests_numbered_mod_65536 cfg_icmp (-1)
           [ReadErr; WriteErr; ReadOk unreachable (ms 3) (ms 1000)] (fresh "example.org")).
  reflexivity.
Defined.

(** A run of 65537 rounds: the last request repeats the sequence number of
    the first. *)
Lemma pingICMP_round_65536_sends_seq_0 :
  let reqs := requests (effects (Main.pingICMP cfg_icmp 4242 Listening
                                   (replicate (Z.to_nat 65537) ReadErr))
                                (fresh "example.org")) in
  reqs !! Z.to_nat 0 = Some (4242, 0) /\
  reqs !! Z.to_nat 65535 = Some (4242, 65535) /\
  reqs !! Z.to_nat 65536 = Some (4242, 0).
Proof.
  cbn zeta. unfold Main.pingICMP.
  rewrite requests_pingICMP_loop by (rewrite ?length_replicate; lia).
  rewrite length_replicate, !list_lookup_fmap.
  rewrite !lookup_seq_lt by lia.
  cbn [fmap option_fmap option_map Nat.add]. rewrite !Z2Nat.id by lia.
  by repeat split.
Qed.

(** ** The later revision of [pingICMP] *)

Lemma part002_body_final (cfg : Config) (pid sq : Z) (io : IcmpIO) (st : State) :
  final (Part002.pingICMP_body cfg pid sq io) st = final (Main.pingICMP_body cfg pid sq io) st.
Proof. destruct st as [l s]. by destruct io. Qed.

Lemma part002_body_sleeps (cfg : Config) (pid sq : Z) (io : IcmpIO) (st : State) :
  sleeps (effects (Part002.pingICMP_body cfg pid sq io) st) = [Interval cfg].
Proof. destruct st as [l s]. by destruct io. Qed.

Lemma main_body_sleeps (cfg : Config) (pid sq : Z) (io : IcmpIO) (st : State) :
  sleeps (effects (Main.pingICMP_body cfg pid sq io) st) =
  match io with WriteErr => [] | _ => [Interval cfg] end.
Proof. destruct st as [l s]. by destruct io. Qed.

(** X10: the later revision of [pingICMP] differs from [main.go]'s in the
    pauses only. On the same answers of the network both leave the same
    counters and the same record; the later revision sleeps [Interval]
    once in every round, [main.go]'s once in every round whose write did
    not fail. *)
Theorem part002_pingICMP_same_state_one_sleep_per_round
    (cfg : Config) (pid : Z) (setup : IcmpSetup) (ios : list IcmpIO) (st : State) :
  final (Part002.pingICMP cfg pid setup ios) st = final (Main.pingICMP cfg pid setup ios) st /\
  sleeps (effects (Part002.pingICMP cfg pid Listening ios) st) =
    replicate (length ios) (Interval cfg) /\
  sleeps (effects (Main.pingICMP cfg pid Listening ios) st) =
    replicate (length (written ios)) (Interval cfg).
Proof.
  split; [|split].
  - destruct setup; try done. unfold Part002.pingICMP, Main.pingICMP.
    generalize 0 as sq. revert st.
    induction ios as [|io ios IH]; intros st sq; [done|].
    rewrite pingICMP_loop_cons.
    change (Part002.pingICMP_loop cfg pid sq (io :: ios))
      with (Part002.pingICMP_body cfg pid sq io ++ Part002.pingICMP_loop cfg pid (incr sq) ios).
    by rewrite !final_app, part002_body_final, IH.
  - unfold Part002.pingICMP. generalize 0 as sq. revert st.
    induction ios as [|io ios IH]; intros st sq; [done|].
    change (Part002.pingICMP_loop cfg pid sq (io :: ios))
      with (Part002.pingICMP_body cfg pid sq io ++ Part002.pingICMP_loop cfg pid (incr sq) ios).
    by rewrite effects_app, sleeps_app, part002_body_sleeps, IH.
  - unfold Main.pingICMP. generalize 0 as sq. revert st.
    induction ios as [|io ios IH]; intros st sq; [done|].
    rewrite pingICMP_loop_cons, effects_app, sleeps_app, main_body_sleeps, IH.
    by destruct io.
Qed.

(** ** The first revision's [ping] *)

Lemma part001_body_final_seq (pid sq sq' : Z) (io : Part001.PingIO) (st : State) :
  final (Part001.ping_body pid sq io) st = final (Part001.ping_body pid sq' io) st.
Proof. destruct st as [l s]. destruct io as [| | |pkt rtt now]; try done.
  simpl. by destruct (Part001.is_echo_reply pkt). Qed.

Lemma part001_loop_cons (pid sq : Z) (io : Part001.PingIO) (ios : list Part001.PingIO) :
  Part001.ping_loop pid sq (io :: ios) =
  Part001.ping_body pid sq io ++ Part001.ping_loop pid (incr sq) ios.
Proof. reflexivity. Qed.

Lemma part001_loop_final_seq (pid sq sq' : Z) (ios : list Part001.PingIO) (st : State) :
  final (Part001.ping_loop pid sq ios) st = final (Part001.ping_loop pid sq' ios) st.
Proof.
  revert sq sq' st. induction ios as [|io ios IH]; intros sq sq' st; [done|].
  rewrite !part001_loop_cons, !final_app.
  by rewrite (part001_body_final_seq pid sq sq'), (IH (incr sq) (incr sq')).
Qed.

Lemma part001_loop_final_app (pid sq : Z) (pre rest : list Part001.PingIO) (st : State) :
  final (Part001.ping_loop pid sq (pre ++ rest)) st =
  final (Part001.ping_loop pid sq rest) (final (Part001.ping_loop pid sq pre) st).
Proof.
  revert sq st. induction pre as [|io pre IH]; intros sq st; [done|].
  rewrite <- app_comm_cons, !part001_loop_cons, !final_app, IH.
  by rewrite (part001_loop_final_seq pid (incr sq) sq rest).
Qed.

Lemma part001_quiet_round (pid sq : Z) (io : Part001.PingIO) (st : State) :
  no_datagram io = true ->
  0 <= sent (fst st) -> sent (fst st) + 1 < 2 ^ 63 ->
  let st' := final (Part001.ping_body pid sq io) st in
  received (fst st') = received (fst st) /\
  sent (fst st) <= sent (fst st') <= sent (fst st) + 1 /\
  RTTs (snd st') = RTTs (snd st).
Proof.
  destruct st as [[s r] rec]. cbn [fst snd sent received]. intros Hio H0 Hlen.
  destruct io as [| | |pkt rtt now]; [| | |done].
  - change (final (Part001.ping_body pid sq Part001.MarshalErr)
              ({| sent := s; received := r |}, rec))
      with ({| sent := s; received := r |}, rec).
    cbn [fst snd sent received]. repeat split; try done; lia.
  - change (final (Part001.ping_body pid sq Part001.PWriteErr)
              ({| sent := s; received := r |}, rec))
      with ({| sent := incr s; received := r |}, rec).
    cbn [fst snd sent received]. unfold incr, int_add. rewrite wrap_small by lia.
    repeat split; try done; lia.
  - change (final (Part001.ping_body pid sq Part001.PReadErr)
              ({| sent := s; received := r |}, rec))
      with ({| sent := incr s; received := r |},
            loss_only {| sent := incr s; received := r |} rec).
    cbn [fst snd sent received loss_only RTTs]. unfold incr, int_add.
    rewrite wrap_small by lia. repeat split; try done; lia.
Qed.

Lemma part001_quiet_run (pid sq : Z) (pre : list Part001.PingIO) (st : State) :
  forallb no_datagram pre = true ->
  0 <= sent (fst st) -> sent (fst st) + Z.of_nat (length pre) < 2 ^ 63 ->
  let st' := final (Part001.ping_loop pid sq pre) st in
  received (fst st') = received (fst st) /\
  sent (fst st) <= sent (fst st') <= sent (fst st) + Z.of_nat (length pre) /\
  RTTs (snd st') = RTTs (snd st).
Proof.
  revert sq st. induction pre as [|io pre IH]; intros sq st Hq H0 Hlen.
  - rewrite final_nil. simpl. repeat split; lia.
  - rewrite length_cons, Nat2Z.inj_succ in Hlen.
    cbn [forallb] in Hq. apply andb_true_iff in Hq as [Hio Hq].
    cbn zeta. rewrite part001_loop_cons, final_app.
    destruct (part001_quiet_round pid sq io st Hio) as (Hr1 & Hs1 & Ht1); [lia|lia|].
    destruct (IH (incr sq) (final (Part001.ping_body pid sq io) st) Hq) as (Hr & Hs & Ht);
      [lia|lia|].
    rewrite length_cons, Nat2Z.inj_succ.
    split; [congruence|]. split; [lia|congruence].
Qed.

Lemma loss_percent_all_lost (s : Z) : 1 <= s < 2 ^ 63 -> (loss_percent s 0 == 100)%Q.
Proof.
  intros Hs. unfold loss_percent, int_sub, float64_of_int.
  rewrite Z.sub_0_r, wrap_small by lia.
  destruct s as [|ps|ps]; try lia.
  unfold Qeq, Qdiv, Qmult, Qinv, inject_Z; simpl.
  rewrite ?Pos.mul_1_r, ?Z.mul_1_r. rewrite Pos2Z.inj_mul. simpl. lia.
Qed.

(** X11: in the first revision a host that never answers shows a loss of
    100 percent. After any rounds of [ping] in which no datagram arrived,
    the last of which ended with a read error, [PacketLoss] is 100,
    [received] is 0 and no sample was recorded. (In [main.go] the same
    host shows 0.) *)
Theorem part001_dead_host_shows_full_loss
    (pid : Z) (host : string) (pre : list Part001.PingIO) :
  forallb no_datagram pre = true ->
  Z.of_nat (length pre) + 1 < 2 ^ 63 ->
  let st := final (Part001.ping pid Listening (pre ++ [Part001.PReadErr])) (fresh host) in
  (PacketLoss (snd st) == 100)%Q /\ received (fst st) = 0 /\ RTTs (snd st) = [].
Proof.
  intros Hq Hlen. cbn zeta. unfold Part001.ping.
  rewrite part001_loop_final_app.
  destruct (part001_quiet_run pid 0 pre (fresh host) Hq) as (Hr & Hs & Ht);
    cbn [fresh fst snd locals0 sent received]; [lia|lia|].
  destruct (final (Part001.ping_loop pid 0 pre) (fresh host)) as [[s r] rec].
  cbn [fst snd sent received fresh locals0 new_HostStats RTTs] in *. subst r.
  change (final (Part001.ping_loop pid 0 [Part001.PReadErr]) ({| sent := s; received := 0 |}, rec))
    with ({| sent := incr s; received := 0 |},
          loss_only {| sent := incr s; received := 0 |} rec).
  cbn [fst snd loss_only PacketLoss RTTs sent received].
  unfold incr, int_add. rewrite wrap_small by lia.
  split; [apply loss_percent_all_lost; lia|done].
Qed.

Lemma part001_dead_host_shows_full_loss_witness :
  forallb no_datagram [Part001.PReadErr; Part001.PWriteErr; Part001.MarshalErr] = true /\
  Z.of_nat (length [Part001.PReadErr; Part001.PWriteErr; Part001.MarshalErr]) + 1 < 2 ^ 63 /\
  let st := final (Part001.ping 4242 Listening
                     ([Part001.PReadErr; Part001.PWriteErr; Part001.MarshalErr]
                      ++ [Part001.PReadErr]))
                  (fresh "1.1.1.1") in
  (PacketLoss (snd st) == 100)%Q /\ received (fst st) = 0 /\ RTTs (snd st) = [].
Proof.
  split; [reflexivity|]. split; [reflexivity|].
  apply (part001_dead_host_shows_full_loss 4242 "1.1.1.1"
           [Part001.PReadErr; Part001.PWriteErr; Part001.MarshalErr]); reflexivity.
Defined.

(** ** What the plot shows *)

Lemma Milliseconds_truncates (d : Duration) :
  Z.abs (Milliseconds d) * 1000000 <= Z.abs d < (Z.abs (Milliseconds d) + 1) * 1000000 /\
  0 <= Milliseconds d * d.
Proof.
  unfold Milliseconds. split.
  - rewrite <- (Z.quot_abs d 1000000) by lia. change (Z.abs 1000000) with 1000000.
    rewrite Z.quot_div_nonneg by lia.
    pose proof (Z.div_mod (Z.abs d) 1000000 ltac:(lia)).
    pose proof (Z.mod_pos_bound (Z.abs d) 1000000 ltac:(lia)). lia.
  - destruct (Z.le_gt_cases 0 d) as [Hd|Hd].
    + apply Z.mul_nonneg_nonneg; [|done]. apply Z.quot_pos; lia.
    + apply Z.mul_nonpos_nonpos; [|lia].
      rewrite <- (Z.opp_involutive d), Z.quot_opp_l by lia.
      pose proof (Z.quot_pos (- d) 1000000). lia.
Qed.

(** X12: the plot shows each sample in whole milliseconds, rounded toward
    zero: the plotted value [m] is an integer with
    [|m| * 10^6 <= |d| < (|m| + 1) * 10^6] and the sign of the sample [d]
    (in nanoseconds), so a round trip under one millisecond is plotted
    as 0; one value is plotted per sample, in order. *)
Theorem plot_row_whole_milliseconds (s : HostStats) :
  Forall2 (fun d v =>
             exists m : Z, v = inject_Z m /\
               Z.abs m * 1000000 <= Z.abs d < (Z.abs m + 1) * 1000000 /\ 0 <= m * d)
          (RTTs s) (plot_row s).
Proof.
  unfold plot_row. induction (RTTs s) as [|d ds IH]; simpl; constructor; [|done].
  exists (Milliseconds d). split; [done|]. apply Milliseconds_truncates.
Qed.

(** ** Drawing text *)

Lemma range_string_shift (a i : Z) (line : list Z) :
  range_string (a + i) line = map (fun ic => (a + fst ic, snd ic)) (range_string i line).
Proof.
  revert i. induction line as [|c line IH]; intros i; [done|].
  simpl. f_equal. by rewrite <- IH, Z.add_assoc.
Qed.

Lemma range_string_app (i : Z) (l1 l2 : list Z) :
  range_string i (l1 ++ l2) = range_string i l1 ++ range_string (i + byte_len l1) l2.
Proof.
  revert i. induction l1 as [|c l1 IH]; intros i; simpl.
  - by rewrite Z.add_0_r.
  - f_equal. by rewrite IH, Z.add_assoc.
Qed.

Lemma range_string_runes (i : Z) (line : list Z) : map snd (range_string i line) = line.
Proof. revert i. induction line as [|c line IH]; intros i; simpl; [done|]. by rewrite IH. Qed.

Lemma drawText_shift (x b y : Z) (style : Style) (line : list Z) :
  map (fun ic => mkCell (int_add x (fst ic)) y (snd ic) style) (range_string b line) =
  map (fun ic => mkCell (int_add (x + b) (fst ic)) y (snd ic) style) (range_string 0 line).
Proof.
  rewrite <- (Z.add_0_r b) at 1. rewrite range_string_shift, map_map.
  apply map_ext. intros [i c]. simpl. unfold int_add. do 2 f_equal. lia.
Qed.

(** X13: [drawText] writes the runes of its texts, joined by four spaces,
    left to right in row [y] with the given style, and nothing for no
    text. The first text starts at column [x], the separator right after
    its last byte and the next text four columns further; the column
    advances by the number of bytes of each rune, so after a rune of
    several bytes columns are skipped. *)
Theorem drawText_layout (x y : Z) (style : Style) :
  (forall t u ts,
     drawText x y style (t :: u :: ts) =
       drawText x y style [t] ++
       drawText (x + byte_len t) y style [four_spaces] ++
       drawText (x + byte_len t + 4) y style (u :: ts)) /\
  (forall txt,
     map cell_rune (drawText x y style txt) = Join txt four_spaces /\
     Forall (fun c => cell_y c = y /\ cell_style c = style) (drawText x y style txt)) /\
  drawText x y style [] = [] /\
  (forall c d,
     drawText x y style [[c; d]] =
       [mkCell (int_add x 0) y c style; mkCell (int_add x (RuneLen c)) y d style]).
Proof.
  split; [|split; [|split; [done|done]]].
  - intros t u ts. unfold drawText.
    change (Join (t :: u :: ts) four_spaces)
      with (t ++ four_spaces ++ Join (u :: ts) four_spaces).
    change (Join [t] four_spaces) with t.
    change (Join [four_spaces] four_spaces) with four_spaces.
    rewrite !range_string_app, !map_app.
    change (byte_len four_spaces) with 4. rewrite !Z.add_0_l.
    rewrite (drawText_shift x (byte_len t)), (drawText_shift x (byte_len t + 4)).
    by rewrite Z.add_assoc.
  - intros txt. unfold drawText. split.
    + rewrite map_map. simpl. apply range_string_runes.
    + apply Forall_forall. intros c Hc.
      apply list_elem_of_fmap in Hc as (ic & -> & _). done.
Qed.

Lemma range_string_ascii (i : Z) (line : list Z) :
  Forall (fun c => 0 <= c < 0x80) line ->
  map fst (range_string i line) = map (fun k => i + Z.of_nat k) (seq 0 (length line)).
Proof.
  revert i. induction line as [|c line IH]; intros i Ha; [done|].
  apply Forall_cons in Ha as [Hc Ha]. simpl. rewrite Z.add_0_r. f_equal.
  rewrite IH by done. rewrite <- seq_shift, map_map. apply map_ext. intros k.
  unfold RuneLen. destruct (c <? 128) eqn:E; [lia|]. apply Z.ltb_ge in E. lia.
Qed.

(** X14: a line of ASCII text is drawn in consecutive columns: the
    [k]-th character of the joined line goes to column [x + k]. *)
Theorem drawText_ascii_columns (x y : Z) (style : Style) (txt : list (list Z)) :
  Forall (fun c => 0 <= c < 0x80) (Join txt four_spaces) ->
  map cell_x (drawText x y style txt) =
  map (fun k => int_add x (Z.of_nat k)) (seq 0 (length (Join txt four_spaces))).
Proof.
  intros Ha. unfold drawText. rewrite map_map. simpl.
  rewrite <- (map_map fst (int_add x)), range_string_ascii by done.
  rewrite map_map. apply map_ext. intros k. by rewrite Z.add_0_l.
Qed.

Lemma drawText_ascii_columns_witness :
  Forall (fun c => 0 <= c < 0x80) (Join header_texts four_spaces) /\
  map cell_x (drawText 0 0 StyleBold header_texts) =
  map (fun k => int_add 0 (Z.of_nat k)) (seq 0 (length (Join header_texts four_spaces))).
Proof.
  assert (Ha : Forall (fun c => 0 <= c < 0x80) (Join header_texts four_spaces)).
  { vm_compute. repeat constructor; discriminate. }
  split; [exact Ha|].
  exact (drawText_ascii_columns 0 0 StyleBold header_texts Ha).
Defined.

(** ** Resolution *)

(** X15: [resolveHost] returns the error of the lookup as it is, and an
    address only when the lookup gave no error and at least one address
    (the first one). A lookup that gives no address and no error yields
    the empty string with a [nil] error, so [pingICMP], which tests the
    error only, does not return and runs its loop; it returns before the
    loop exactly when the lookup or [ListenPacket] reports an error. *)
Theorem resolveHost_passes_error_through
    (IP_String : list Z -> string) (ips : list (list Z)) (err listen : error)
    (cfg : Config) (pid : Z) (ios : list IcmpIO) :
  snd (resolveHost IP_String (ips, err)) = err /\
  fst (resolveHost IP_String (ips, err)) =
    match err, ips with
    | None, ip :: _ => IP_String ip
    | _, _ => EmptyString
    end /\
  icmp_setup IP_String (ips, err) listen =
    match err, listen with
    | Some _, _ => ResolveErr
    | None, Some _ => ListenErr
    | None, None => Listening
    end /\
  resolveHost IP_String ([], None) = (EmptyString, None) /\
  Main.pingICMP cfg pid (icmp_setup IP_String ([], None) None) ios =
    Main.pingICMP_loop cfg pid 0 ios.
Proof.
  assert (Hsnd : snd (resolveHost IP_String (ips, err)) = err).
  { unfold resolveHost. destruct err as [e|], ips as [|ip ips']; done. }
  split; [exact Hsnd|]. split; [|split; [|done]].
  - unfold resolveHost. destruct err as [e|], ips as [|ip ips']; done.
  - unfold icmp_setup. rewrite Hsnd. by destruct err, listen.
Qed.

(** ** The graph display's loop *)

Lemma displayGraph_loop_stopped (sel : list Select) (w : World) :
  displayGraph_loop sel false w = (false, w, []).
Proof. by destruct sel. Qed.

(** X16: the graph display stops at the first keyboard event [q]: nothing
    that [select] yields after it is rendered or trims a record, and [run]
    is false from then on, also for the probe loops. Mouse and resize
    events, whatever their identifier, change nothing. *)
Theorem displayGraph_loop_quits_on_q (pre post : list Select) (run : bool) (w : World) :
  displayGraph_loop (pre ++ UiEvent KeyboardEvent "q" :: post) run w =
    displayGraph_loop (pre ++ [UiEvent KeyboardEvent "q"]) run w /\
  fst (fst (displayGraph_loop (pre ++ UiEvent KeyboardEvent "q" :: post) run w)) = false /\
  (forall id,
     displayGraph_loop (pre ++ UiEvent MouseEvent id :: post) run w =
       displayGraph_loop (pre ++ post) run w /\
     displayGraph_loop (pre ++ UiEvent ResizeEvent id :: post) run w =
       displayGraph_loop (pre ++ post) run w).
Proof.
  revert run w. induction pre as [|ev pre IH]; intros run w.
  - destruct run; simpl; [|by destruct post].
    rewrite displayGraph_loop_stopped. by destruct post.
  - destruct run; [|done]. cbn [app].
    destruct ev as [|type id'].
    + cbn [displayGraph_loop].
      destruct (Main.displayGraph_tick w) as [w' frame].
      destruct (IH true w') as (H1 & H2 & H3).
      rewrite H1. split; [done|]. split.
      * rewrite <- H1.
        destruct (displayGraph_loop (pre ++ UiEvent KeyboardEvent "q" :: post) true w')
          as [[r w''] frames]. exact H2.
      * intros id. destruct (H3 id) as [H4 H5]. by rewrite H4, H5.
    + cbn [displayGraph_loop]. apply IH.
Qed.

(** ** Slices and lists *)

Lemma abs_world_main_alloc (cfg : Config) :
  Heap.abs_world (Heap.main_alloc cfg) = Main.main_alloc cfg.
Proof.
  unfold Heap.abs_world, Heap.main_alloc, Main.main_alloc; simpl.
  f_equal. rewrite map_map. by apply map_ext.
Qed.

(** X17: read through its slice, each host's [RTTs] is, after any run of
    the probe loops and the display, exactly the list that appending and
    trimming give: an [append] never writes into what another host's slice
    (or an older part of the same history) shows, whether it writes in
    place or moves the samples to a new array, and a write on one host
    changes no other host's record. All the while every slice lies within
    its array and no two hosts share an array. *)
Theorem slices_behave_as_lists
    (growslice : nat -> nat -> nat) (cfg : Config) (es : list (nat * Stmt * Locals)) :
  Heap.abs_world (Heap.exec_writes growslice es (Heap.main_alloc cfg)) =
    world_writes es (Main.main_alloc cfg) /\
  Heap.owned (Heap.exec_writes growslice es (Heap.main_alloc cfg)).
Proof.
  split; [|apply HeapFacts.exec_writes_owned, HeapFacts.owned_main_alloc].
  induction es as [|e es IH] using rev_ind; [apply abs_world_main_alloc|].
  unfold Heap.exec_writes, world_writes in *. rewrite !foldl_snoc.
  destruct e as [[i c] l]. rewrite exec_write_abs.
  - by rewrite IH.
  - apply HeapFacts.exec_writes_owned, HeapFacts.owned_main_alloc.
Qed.
